(** * UTFSet: a set of runes stored in a 64-ary tree that mirrors UTF-8

    Shallow embedding of [utfset.c] ([addutf], [foreach], [foreach1] and the
    table [clo6]) and the properties of the set it implements. *)

From stdpp Require Import base option list list_numbers sorting strings.
From Stdlib Require Import ZArith Lia Sorted Ascii.

Open Scope Z_scope.
Set Warnings "-register-all".

(** ** Data model *)

(** [union child]: the same 64-bit slot is read either as a bitmask
    ([bits]) or as a pointer to a block of 64 further slots ([ptr]).  Which of
    the two it is follows from the depth, the slot stores no tag.  Blocks are
    owned by the single slot that points at them ([calloc] results are stored
    once and never copied), so a non-null pointer is modelled by the block it
    points to.  The all-zero slot [Bits 0] is at once the empty bitmask and
    the null pointer, as in a block that comes from [calloc]. *)
Inductive child : Type :=
  | Bits (bits : Z)
  | Ptr (blk : list child).

(** [struct block]: 64 slots; [typedef struct block UTFSet]. *)
Abbreviation block := (list child) (only parsing).
Abbreviation UTFSet := (list child) (only parsing).

(** What [calloc(1, sizeof (struct block))] returns on success. *)
Definition zero_block : block := replicate 64 (Bits 0).
Arguments zero_block : simpl never.

(** [UTFSet set = { 0 }] *)
Definition empty_set : UTFSet := zero_block.

(** [t.bits]: the slot read as a bitmask.  A slot that holds the address of a
    block has no value in this model. *)
Definition bits_of (t : child) : option Z :=
  match t with
  | Bits b => Some b
  | Ptr _ => None
  end.

(** [t.ptr]: the slot read as a pointer; [Some None] is [NULL].  A non-zero
    bitmask read as a pointer points nowhere the model knows. *)
Definition ptr_of (t : child) : option (option block) :=
  match t with
  | Bits b => if b =? 0 then Some None else None
  | Ptr blk => Some (Some blk)
  end.

(** [blk[c]] and [clo6[c]] for an index held in an [unsigned char]. *)
Definition slot {A : Type} (blk : list A) (c : Z) : option A := blk !! Z.to_nat c.

(** The allocator: the outcomes of the calls to [calloc] still to come, in
    order; [true] is a fresh zeroed block, [false] is [NULL].  An exhausted
    list keeps answering [NULL]. *)
Abbreviation allocator := (list bool) (only parsing).

Definition calloc (a : allocator) : allocator * option block :=
  match a with
  | true :: a' => (a', Some zero_block)
  | false :: a' => (a', None)
  | [] => ([], None)
  end.

(** [const char clo6[]] *)
Definition clo6 : list Z :=
  [ 0; 0; 0; 0; 0; 0; 0; 0; 0; 0; 0; 0; 0; 0; 0; 0;
    0; 0; 0; 0; 0; 0; 0; 0; 0; 0; 0; 0; 0; 0; 0; 0;
    1; 1; 1; 1; 1; 1; 1; 1; 1; 1; 1; 1; 1; 1; 1; 1;
    2; 2; 2; 2; 2; 2; 2; 2; 3; 3; 3; 3; 4; 4; 5; 6 ].

(** [(unsigned char)x] *)
Definition uchar (x : Z) : Z := x mod 256.

(** Arithmetic in [char32_t] wraps at 32 bits. *)
Definition wrap32 (x : Z) : Z := x mod 2 ^ 32.

(** ** addutf *)

(** The part of [addutf] from [tp = &set->blk[c]] on, seen from the slot [tp]
    points at: the loop [for (; n > 0; n--)] followed by the bit-set.  The
    string is a byte buffer [s], the cursor an index [pos] into it; reading
    outside the buffer is undefined ([None]).  The result is the allocator
    afterwards, the slot afterwards and the returned cursor ([None] is
    [NULL]). *)
Fixpoint walk (n : nat) (a : allocator) (tp : child) (s : list Z) (pos : nat)
  : option (allocator * child * option nat) :=
  match n with
  | S n' =>
      let descend (a1 : allocator) (blk : block) :=
        b ← s !! pos;
        let c := uchar b mod 64 in
        t ← slot blk c;
        '(a2, t', ret) ← walk n' a1 t s (S pos);
        Some (a2, Ptr (<[Z.to_nat c := t']> blk), ret) in
      p ← ptr_of tp;
      match p with
      | None =>
          match calloc a with
          | (a1, None) => Some (a1, tp, None)
          | (a1, Some blk) => descend a1 blk
          end
      | Some blk => descend a blk
      end
  | O =>
      b ← s !! pos;
      let c := uchar b mod 64 in
      m ← bits_of tp;
      Some (a, Bits (Z.lor m (Z.shiftl 1 c)), Some (S pos))
  end.

(** [addutf(set, s)], with [s] the buffer and [pos] the cursor. *)
Definition addutf (a : allocator) (set : UTFSet) (s : list Z) (pos : nat)
  : option (allocator * UTFSet * option nat) :=
  b ← s !! pos;
  let c := uchar b in
  let pos := S pos in
  let start (c : Z) (n : nat) (pos : nat) :=
    tp ← slot set c;
    '(a', tp', ret) ← walk n a tp s pos;
    Some (a', <[Z.to_nat c := tp']> set, ret) in
  if 192 <=? c then
    let c := c mod 64 in
    n ← slot clo6 c;
    start c (Z.to_nat n) pos
  else if c <? 128 then
    let c := c / 64 in
    start c 0%nat (pos - 1)%nat
  else
    Some (a, set, None).

(** ** foreach *)

(** [for (unsigned char c = 0; c < 64; c++) body], the body acting on the
    state [S] of the callback. *)
Fixpoint for_each_c {S : Type} (body : Z → S → option S) (cs : list Z) (acc : S)
  : option S :=
  match cs with
  | [] => Some acc
  | c :: cs' => acc' ← body c acc; for_each_c body cs' acc'
  end.

(** [foreach1(t, n, r, fcn)]: the callback is a function on a state of its
    own; the slot is passed by value. *)
Fixpoint foreach1 {S : Type} (t : child) (n : nat) (r : Z) (fcn : Z → S → S)
  (acc : S) {struct n} : option S :=
  match n with
  | S n' =>
      match ptr_of t with
      | Some (Some blk) =>
          for_each_c
            (λ c acc,
               match slot blk c with
               | Some t' => foreach1 t' n' (wrap32 (r * 64 + c)) fcn acc
               | None => None
               end)
            (seqZ 0 64) acc
      | Some None => Some acc
      | None => None
      end
  | O =>
      match bits_of t with
      | Some m =>
          for_each_c
            (λ c acc,
               Some (if Z.land m (Z.shiftl 1 c) =? 0 then acc
                     else fcn (wrap32 (r * 64 + c)) acc))
            (seqZ 0 64) acc
      | None => None
      end
  end.

(** [foreach(set, fcn)], in state-passing form: the allocator and the set go
    in and come out, next to the state of the callback. *)
Definition foreach {S : Type} (a : allocator) (set : UTFSet) (fcn : Z → S → S)
  (acc : S) : option (allocator * UTFSet * S) :=
  acc' ← for_each_c
    (λ c acc,
       n ← slot clo6 c;
       let r := wrap32 (c mod Z.shiftr 64 n) in
       t ← slot set c;
       foreach1 t (Z.to_nat n) r fcn acc)
    (seqZ 0 64) acc;
  Some (a, set, acc').

(** The successive arguments of the callback: [foreach] with a callback that
    records them. *)
Definition visits (set : UTFSet) : option (list Z) :=
  '(_, _, l) ← foreach [] set (λ r l, l ++ [r]) [];
  Some l.

(** Calling [addutf] [k] times in a row, each call at the cursor the one
    before returned, stopping at the first [NULL]. *)
Fixpoint addutf_n (k : nat) (a : allocator) (set : UTFSet) (s : list Z) (pos : nat)
  : option (allocator * UTFSet * option nat) :=
  match k with
  | O => Some (a, set, Some pos)
  | S k' =>
      '(a1, set1, ret) ← addutf a set s pos;
      match ret with
      | None => Some (a1, set1, None)
      | Some pos1 => addutf_n k' a1 set1 s pos1
      end
  end.

(** The visits of [foreach] after [k] calls of [addutf] on the buffer [s],
    from the empty set. *)
Definition visits_after (k : nat) (a : allocator) (s : list Z) : option (list Z) :=
  '(_, set, _) ← addutf_n k a empty_set s 0;
  visits set.

(** The bytes of "aé€𝔈" in UTF-8. *)
Definition c9_string : list Z :=
  [0x61; 0xC3; 0xA9; 0xE2; 0x82; 0xAC; 0xF0; 0x9D; 0x94; 0x88].

(** ** Well-shaped sets and the runes they hold *)

(** A slot that has [n] more levels below it: a 64-bit bitmask when [n = 0],
    otherwise null or a block of 64 slots with [n - 1] levels below each. *)
Fixpoint shaped (n : nat) (t : child) : bool :=
  match n, t with
  | O, Bits m => (0 <=? m) && (m <? 2 ^ 64)
  | O, Ptr _ => false
  | S n', Bits m => m =? 0
  | S n', Ptr blk => (length blk =? 64)%nat && forallb (shaped n') blk
  end.

(** The root: 64 slots, the depth below slot [c] given by [clo6[c]]. *)
Definition wf (set : UTFSet) : bool :=
  (length set =? 64)%nat &&
  forallb
    (λ c, match slot clo6 c, slot set c with
          | Some n, Some t => shaped (Z.to_nat n) t
          | _, _ => false
          end)
    (seqZ 0 64).

(** The runes of a bitmask [m] reached with the partial value [r], in the
    order of the bits. *)
Definition bit_runes (m r : Z) : list Z :=
  c ← seqZ 0 64;
  if Z.land m (Z.shiftl 1 c) =? 0 then [] else [wrap32 (r * 64 + c)].

(** The runes below a slot, in the order [foreach1] reaches them. *)
Fixpoint elems (n : nat) (t : child) (r : Z) {struct n} : list Z :=
  match n, t with
  | O, Bits m => bit_runes m r
  | S n', Ptr blk =>
      c ← seqZ 0 64;
      match slot blk c with
      | Some t' => elems n' t' (wrap32 (r * 64 + c))
      | None => []
      end
  | _, _ => []
  end.

(** The runes of a set, in the order [foreach] reaches them. *)
Definition runes (set : UTFSet) : list Z :=
  c ← seqZ 0 64;
  match slot clo6 c, slot set c with
  | Some n, Some t => elems (Z.to_nat n) t (wrap32 (c mod Z.shiftr 64 n))
  | _, _ => []
  end.

(** ** The vocabulary of the properties *)

(** The value [addutf] and [foreach1] give to the bytes [bs] read after the
    partial value [r]: six more bits per byte. *)
Definition value (r : Z) (bs : list Z) : Z :=
  foldl (λ r b, wrap32 (r * 64 + uchar b mod 64)) r bs.

(** A slot below which no bit is set: null, a zero bitmask, or a block of
    blank slots. *)
Fixpoint blank (n : nat) (t : child) : bool :=
  match n, t with
  | _, Bits m => m =? 0
  | S n', Ptr blk => forallb (blank n') blk
  | O, Ptr _ => false
  end.

(** [grown n t t']: the slot [t'] is the slot [t] in which some null pointers
    were replaced by blank blocks; every bitmask is what it was. *)
Fixpoint grown (n : nat) (t t' : child) : Prop :=
  match n with
  | O => t' = t
  | S n' =>
      match t, t' with
      | Ptr blk, Ptr blk' => Forall2 (grown n') blk blk'
      | Bits _, _ => t = Bits 0 ∧ blank n t' = true
      | Ptr _, Bits _ => False
      end
  end.

(** What the first byte [b] at [pos] decides: the root slot [c], the number
    [n] of levels below it, and the cursor [start] the descent reads from. *)
Definition lead (b : Z) (pos : nat) (c n : Z) (start : nat) : Prop :=
  slot clo6 c = Some n ∧ 0 ≤ c < 64 ∧
  (192 ≤ uchar b ∧ c = uchar b mod 64 ∧ start = S pos ∨
   uchar b < 128 ∧ c = uchar b / 64 ∧ n = 0 ∧ start = pos).

(** The rune [addutf] stores for the bytes at [pos]: the value [foreach]
    later computes along the path these bytes select. *)
Definition rune_at (s : list Z) (pos : nat) (v : Z) : Prop :=
  ∃ b c n start,
    s !! pos = Some b ∧ lead b pos c n start ∧
    v = value (wrap32 (c mod Z.shiftr 64 n))
          (take (S (Z.to_nat n)) (drop start s)).

(** The runes UTF-8 can encode in one to six bytes (the encoding as first
    defined; the code points of RFC 3629, up to [0x10FFFF], are among them). *)
Definition rune_ok (r : Z) : Prop := 0 ≤ r < 2 ^ 31.

(** The UTF-8 encoding of a rune: the shortest form, the only one that is
    not overlong. *)
Definition utf8 (r : Z) : list Z :=
  if r <? 0x80 then [r]
  else if r <? 0x800 then
    [0xC0 + r / 64; 0x80 + r mod 64]
  else if r <? 0x10000 then
    [0xE0 + r / 4096; 0x80 + r / 64 mod 64; 0x80 + r mod 64]
  else if r <? 0x200000 then
    [0xF0 + r / 262144; 0x80 + r / 4096 mod 64; 0x80 + r / 64 mod 64;
     0x80 + r mod 64]
  else if r <? 0x4000000 then
    [0xF8 + r / 16777216; 0x80 + r / 262144 mod 64; 0x80 + r / 4096 mod 64;
     0x80 + r / 64 mod 64; 0x80 + r mod 64]
  else
    [0xFC + r / 1073741824; 0x80 + r / 16777216 mod 64;
     0x80 + r / 262144 mod 64; 0x80 + r / 4096 mod 64; 0x80 + r / 64 mod 64;
     0x80 + r mod 64].

(** The buffer [s] holds the bytes [bs] at the cursor [pos]. *)
Definition holds (s : list Z) (pos : nat) (bs : list Z) : Prop :=
  take (length bs) (drop pos s) = bs.

(** The least rune whose shortest encoding has [n + 1] continuation bytes. *)
Definition min_rune (n : Z) : Z :=
  match n with
  | 0 => 0
  | 1 => 0x800
  | 2 => 0x10000
  | 3 => 0x200000
  | 4 => 0x4000000
  | _ => 0x80000000
  end.

(** No overlong sequence is stored: below the root slot of each length there
    are only runes that need that length, and none in the lengths UTF-8
    never had. *)
Definition canon (set : UTFSet) : Prop :=
  ∀ c n t v,
    0 ≤ c < 64 → slot clo6 c = Some n → slot set c = Some t →
    v ∈ elems (Z.to_nat n) t (wrap32 (c mod Z.shiftr 64 n)) →
    n ≤ 4 ∧ min_rune n ≤ v.

(** The window of values of root slot [c]: from [window_lo c] up to, and
    not including, [window_hi c]. *)
Definition window_lo (c : Z) : Z :=
  match slot clo6 c with
  | Some n => Z.max (min_rune n) (c mod Z.shiftr 64 n * 64 ^ (n + 1))
  | None => 0
  end.

Definition window_hi (c : Z) : Z :=
  match slot clo6 c with
  | Some n => (c mod Z.shiftr 64 n + 1) * 64 ^ (n + 1)
  | None => 0
  end.

(** The table [clo6], by ranges of the index. *)
Definition clo6_class (c : Z) : Z :=
  if c <? 32 then 0 else if c <? 48 then 1 else if c <? 56 then 2
  else if c <? 60 then 3 else if c <? 62 then 4 else if c <? 63 then 5 else 6.

(** The UTF-8 encoding of a sequence of runes. *)
Definition encode (rs : list Z) : list Z := rs ≫= utf8.

(** The number of leading one-bits of [x] read as a [w]-bit pattern. *)
Fixpoint leading_ones (w : nat) (x : Z) : Z :=
  match w with
  | O => 0
  | S w' => if Z.testbit x (Z.of_nat w') then 1 + leading_ones w' x else 0
  end.

Arguments leading_ones : simpl never.

(** The first byte at the cursor is a continuation byte. *)
Definition malformed (s : list Z) (pos : nat) : Prop :=
  ∃ b, s !! pos = Some b ∧ 128 ≤ uchar b < 192.

(** Some call to [calloc] made with the allocator [a] returned [NULL],
    leaving the allocator [a']. *)
Definition out_of_memory (a a' : allocator) : Prop :=
  ∃ k, take k a = replicate k true ∧ calloc (drop k a) = (a', None).

(** The result of a failed [addutf] tells which of the two failures it was:
    some function of the returned cursor separates them. *)
Definition failures_told_apart : Prop :=
  ∃ kind : option nat → bool,
    ∀ a set s pos a' set' ret,
      addutf a set s pos = Some (a', set', ret) → ret = None →
      (kind ret = true ↔ malformed s pos).

(** The sets [addutf] builds from the empty set out of UTF-8 encodings. *)
Inductive built : UTFSet → Prop :=
  | built_empty : built empty_set
  | built_addutf a set s pos r a' set' p :
      built set → rune_ok r → holds s pos (utf8 r) →
      addutf a set s pos = Some (a', set', Some p) →
      built set'.

(** ** prune and prunes *)

(** One digit of [%X]. *)
Definition hex_digit (d : Z) : ascii :=
  match d with
  | 0 => "0" | 1 => "1" | 2 => "2" | 3 => "3" | 4 => "4" | 5 => "5"
  | 6 => "6" | 7 => "7" | 8 => "8" | 9 => "9" | 10 => "A" | 11 => "B"
  | 12 => "C" | 13 => "D" | 14 => "E" | _ => "F"
  end%char.

(** The digits of [x] in base 16, the most significant first, in front of
    [acc]; [fuel] bounds their number. *)
Fixpoint hex_of (fuel : nat) (x : Z) (acc : string) : string :=
  match fuel with
  | O => acc
  | S fuel' =>
      let acc' := String (hex_digit (x mod 16)) acc in
      if x / 16 =? 0 then acc' else hex_of fuel' (x / 16) acc'
  end.

(** Zeros in front of [d] up to the width [w]. *)
Definition pad0 (w : nat) (d : string) : string :=
  Nat.iter (w - String.length d) (String "0"%char) d.

(** [printf("%04" PRIX32, (uint32_t)r)]: at least four digits. *)
Definition rune_digits (r : Z) : string := pad0 4 (hex_of 8 (r mod 2 ^ 32) "").

(** [prune(r)], as a callback of [foreach]: its state is what was written to
    stdout so far. *)
Definition prune (r : Z) (out : string) : string :=
  out +:+ "U+" +:+ rune_digits r +:+ String "010"%char "".

(** How a run of a loop that has no bound of its own ends. *)
Inductive run (A : Type) : Type :=
  | Returns (x : A)
  | Undefined
  | OutOfFuel.
Arguments Returns {A} x.
Arguments Undefined {A}.
Arguments OutOfFuel {A}.

(** [prunes(s)] from the loop on: the set is the local [set], [out] is what
    stdout holds, each iteration of the [while] loop takes one unit of
    [fuel].  The result is the allocator, stdout and the returned [int]. *)
Fixpoint prunes_from (fuel : nat) (a : allocator) (set : UTFSet) (s : list Z)
    (pos : nat) (out : string) : run (allocator * string * Z) :=
  match fuel with
  | O => OutOfFuel
  | S fuel' =>
      match s !! pos with
      | None => Undefined
      | Some b =>
          if uchar b =? 0 then
            match foreach a set prune out with
            | Some (a', _, out') => Returns (a', out', 0)
            | None => Undefined
            end
          else
            match addutf a set s pos with
            | Some (a', set', Some pos') => prunes_from fuel' a' set' s pos' out
            | Some (a', _, None) => Returns (a', out, -1)
            | None => Undefined
            end
      end
  end.

(** [prunes(s)] *)
Definition prunes (fuel : nat) (a : allocator) (s : list Z) (pos : nat)
    (out : string) : run (allocator * string * Z) :=
  prunes_from fuel a empty_set s pos out.

(** ** More vocabulary *)

(** The value of a digit of base 16. *)
Definition digit_value (ch : ascii) : Z :=
  let n := Z.of_nat (nat_of_ascii ch) in
  if n <? 58 then n - 48 else n - 55.

(** Reading a string of digits of base 16, after the value [v]. *)
Fixpoint unhex (v : Z) (d : string) : Z :=
  match d with
  | EmptyString => v
  | String ch d' => unhex (v * 16 + digit_value ch) d'
  end.

(** The six-bit indices [addutf] takes from the bytes [bs]. *)
Definition indices (bs : list Z) : list Z := (λ b, uchar b mod 64) <$> bs.

(** The slot [t], with [n] levels below it, after the bit at the end of the
    path [cs] is set, blocks being added where the path meets a null
    pointer. *)
Fixpoint graft (n : nat) (t : child) (cs : list Z) : child :=
  match n, cs with
  | O, c :: _ =>
      match t with
      | Bits m => Bits (Z.lor m (Z.shiftl 1 c))
      | Ptr _ => t
      end
  | S n', c :: cs' =>
      let blk := match t with Ptr blk => blk | Bits _ => zero_block end in
      match slot blk c with
      | Some t' => Ptr (<[Z.to_nat c := graft n' t' cs']> blk)
      | None => t
      end
  | _, [] => t
  end.

(** The three-byte form of a rune below [0x800]: an overlong sequence. *)
Definition overlong3 (r : Z) : list Z :=
  [0xE0; 0x80 + r / 64; 0x80 + r mod 64].

(** * Properties *)

(** ** The loop and the traversal *)

Lemma for_each_c_foldl {S : Type} (body : Z → S → option S) (g : S → Z → S)
    (F : Z → list Z) (cs : list Z) :
  (∀ c acc, c ∈ cs → body c acc = Some (foldl g acc (F c))) →
  ∀ acc, for_each_c body cs acc = Some (foldl g acc (cs ≫= F)).
Proof.
  induction cs as [|c cs IH]; intros Hbody acc; [done|].
  cbn [for_each_c]. rewrite Hbody by apply list_elem_of_here. cbn.
  rewrite IH by (intros; apply Hbody; by apply list_elem_of_further).
  by rewrite foldl_app.
Qed.

(** Boolean tests in hypotheses, as propositions. *)
Ltac unbool :=
  repeat match goal with
    | H : _ && _ = true |- _ => apply andb_prop in H as [? ?]
    | H : (_ <=? _) = true |- _ => apply Z.leb_le in H
    | H : (_ <? _) = true |- _ => apply Z.ltb_lt in H
    | H : (_ =? _) = true |- _ => apply Z.eqb_eq in H
    | H : (_ =? _)%nat = true |- _ => apply Nat.eqb_eq in H
    | H : (_ <=? _) = false |- _ => apply Z.leb_gt in H
    | H : (_ <? _) = false |- _ => apply Z.ltb_ge in H
    | H : (_ =? _) = false |- _ => apply Z.eqb_neq in H
    end.

Lemma shaped_leaf t : shaped 0 t = true → ∃ m, t = Bits m ∧ 0 ≤ m < 2 ^ 64.
Proof.
  destruct t as [m|]; [|done]. cbn. intros H. unbool.
  exists m. split; [done|lia].
Qed.

Lemma shaped_node n t :
  shaped (S n) t = true →
  t = Bits 0 ∨
  ∃ blk, t = Ptr blk ∧ length blk = 64%nat ∧
         ∀ c t', blk !! c = Some t' → shaped n t' = true.
Proof.
  destruct t as [m|blk]; cbn.
  - intros H. unbool. left. by f_equal.
  - intros H. unbool. right. exists blk. split_and!; [done..|].
    intros c t' Hc. rewrite forallb_forall in H0. apply H0.
    rewrite <- list_elem_of_In. eapply list_elem_of_lookup_2, Hc.
Qed.

Lemma slot_is_Some {A : Type} (blk : list A) (c : Z) :
  length blk = 64%nat → 0 ≤ c < 64 → is_Some (slot blk c).
Proof. intros Hlen Hc. apply lookup_lt_is_Some. lia. Qed.

Lemma foreach1_elems {S : Type} (fcn : Z → S → S) (n : nat) :
  ∀ t r acc, shaped n t = true →
  foreach1 t n r fcn acc = Some (foldl (λ a v, fcn v a) acc (elems n t r)).
Proof.
  induction n as [|n IH]; intros t r acc Ht.
  - apply shaped_leaf in Ht as (m & -> & _). cbn [foreach1 bits_of elems].
    unfold bit_runes. apply for_each_c_foldl.
    intros c acc' _. by destruct (Z.land m (Z.shiftl 1 c) =? 0).
  - apply shaped_node in Ht as [->|(blk & -> & Hlen & Hsub)]; [done|].
    cbn [foreach1 ptr_of elems]. apply for_each_c_foldl.
    intros c acc' Hc. destruct (slot blk c) as [t'|] eqn:Hslot.
    + apply IH. eapply Hsub, Hslot.
    + apply elem_of_seqZ in Hc.
      destruct (slot_is_Some blk c Hlen) as [? ?]; [lia|congruence].
Qed.

Lemma clo6_range c n : slot clo6 c = Some n → 0 ≤ n ≤ 6.
Proof.
  unfold slot. intros H%list_elem_of_lookup_2. revert n H.
  apply Forall_forall. unfold clo6. repeat (constructor; [lia|]). constructor.
Qed.

Lemma wf_slot set c :
  wf set = true → 0 ≤ c < 64 →
  ∃ n t, slot clo6 c = Some n ∧ slot set c = Some t ∧ 0 ≤ n ≤ 6 ∧
         shaped (Z.to_nat n) t = true.
Proof.
  unfold wf. intros H Hc. unbool. rewrite forallb_forall in H0.
  specialize (H0 c). rewrite <- list_elem_of_In, elem_of_seqZ in H0.
  specialize (H0 ltac:(lia)).
  destruct (slot clo6 c) as [n|] eqn:Hn; [|done].
  destruct (slot set c) as [t|]; [|done].
  exists n, t. split_and!; try done; by eapply clo6_range.
Qed.

Lemma foreach_runes {S : Type} (a : allocator) (set : UTFSet) (fcn : Z → S → S)
    (acc : S) :
  wf set = true →
  foreach a set fcn acc = Some (a, set, foldl (λ a v, fcn v a) acc (runes set)).
Proof.
  intros Hwf. unfold foreach, runes.
  erewrite for_each_c_foldl; [done|].
  intros c acc' Hc%elem_of_seqZ.
  destruct (wf_slot set c Hwf) as (n & t & -> & -> & _ & Ht); [lia|].
  cbn. by apply foreach1_elems.
Qed.

Lemma foldl_snoc (l acc : list Z) : foldl (λ l r, l ++ [r]) acc l = acc ++ l.
Proof.
  revert acc. induction l as [|x l IH]; intros acc; cbn.
  - by rewrite app_nil_r.
  - by rewrite IH, <- app_assoc.
Qed.

Lemma visits_runes set : wf set = true → visits set = Some (runes set).
Proof.
  intros Hwf. unfold visits. rewrite foreach_runes by done. cbn.
  by rewrite foldl_snoc.
Qed.

(** ** Bits and bitmasks *)

Lemma land_bit m c :
  0 ≤ c → (Z.land m (Z.shiftl 1 c) =? 0) = negb (Z.testbit m c).
Proof.
  intros Hc. rewrite Z.shiftl_1_l.
  destruct (Z.testbit m c) eqn:Hb; cbn.
  - apply Z.eqb_neq. intros H0.
    assert (Z.testbit (Z.land m (2 ^ c)) c = false) as Hf
      by (rewrite H0; apply Z.bits_0).
    by rewrite Z.land_spec, Hb, Z.pow2_bits_true in Hf.
  - apply Z.eqb_eq, Z.bits_inj'. intros i Hi.
    rewrite Z.land_spec, Z.bits_0, Z.pow2_bits_eqb by done.
    destruct (Z.eqb_spec c i) as [->|]; [by rewrite Hb|by rewrite andb_false_r].
Qed.

Lemma elem_of_bit_runes m r v :
  v ∈ bit_runes m r ↔
  ∃ c, 0 ≤ c < 64 ∧ Z.testbit m c = true ∧ v = wrap32 (r * 64 + c).
Proof.
  unfold bit_runes. rewrite list_elem_of_bind. split.
  - intros (c & Hv & Hc%elem_of_seqZ). rewrite land_bit in Hv by lia.
    destruct (Z.testbit m c) eqn:Hb; cbn in Hv.
    + apply list_elem_of_singleton in Hv. exists c. split_and!; [lia..|done|done].
    + by apply elem_of_nil in Hv.
  - intros (c & Hc & Hb & ->). exists c. rewrite land_bit, Hb by lia. cbn.
    split; [apply list_elem_of_here|apply elem_of_seqZ; lia].
Qed.

Lemma elem_of_elems_node n blk r v :
  v ∈ elems (S n) (Ptr blk) r ↔
  ∃ c t, 0 ≤ c < 64 ∧ slot blk c = Some t ∧ v ∈ elems n t (wrap32 (r * 64 + c)).
Proof.
  cbn [elems]. rewrite list_elem_of_bind. split.
  - intros (c & Hv & Hc%elem_of_seqZ).
    destruct (slot blk c) as [t|] eqn:E; [|by apply elem_of_nil in Hv].
    exists c, t. split_and!; [lia..|done|done].
  - intros (c & t & Hc & E & Hv). exists c. rewrite E.
    split; [done|apply elem_of_seqZ; lia].
Qed.

Lemma elems_null n r : elems n (Bits 0) r = [].
Proof. destruct n; [|done]. by vm_compute. Qed.

Lemma slot_zero_block c t : slot zero_block c = Some t → t = Bits 0.
Proof. unfold slot, zero_block. by intros [-> _]%lookup_replicate. Qed.

Lemma elems_zero_block n r : elems (S n) (Ptr zero_block) r = [].
Proof.
  apply elem_of_nil_inv. intros v (c & t & _ & Ht & Hv)%elem_of_elems_node.
  apply slot_zero_block in Ht as ->. rewrite elems_null in Hv.
  by apply elem_of_nil in Hv.
Qed.

(** ** The descent of addutf *)

Lemma calloc_Some a a1 blk :
  calloc a = (a1, Some blk) → a = true :: a1 ∧ blk = zero_block.
Proof. destruct a as [|[] a0]; cbn; intros H; by simplify_eq. Qed.

Lemma calloc_None a a1 :
  calloc a = (a1, None) → a = false :: a1 ∨ a = [] ∧ a1 = [].
Proof. destruct a as [|[] a0]; cbn; intros H; simplify_eq; eauto. Qed.

Lemma walk_leaf_inv a tp s pos a' tp' ret :
  walk 0 a tp s pos = Some (a', tp', ret) →
  ∃ b m, s !! pos = Some b ∧ tp = Bits m ∧ a' = a ∧
         tp' = Bits (Z.lor m (Z.shiftl 1 (uchar b mod 64))) ∧
         ret = Some (S pos).
Proof.
  cbn [walk]. intros H.
  destruct (s !! pos) as [b|]; cbn in H; [|done].
  destruct tp as [m|]; cbn in H; [|done].
  simplify_eq. by eexists _, _.
Qed.

Lemma walk_node_inv n a tp s pos a' tp' ret :
  walk (S n) a tp s pos = Some (a', tp', ret) →
  (tp = Bits 0 ∧ tp' = tp ∧ ret = None ∧ calloc a = (a', None)) ∨
  ∃ a1 blk b t t',
    (tp = Ptr blk ∧ a1 = a ∨ tp = Bits 0 ∧ a = true :: a1 ∧ blk = zero_block) ∧
    s !! pos = Some b ∧ slot blk (uchar b mod 64) = Some t ∧
    walk n a1 t s (S pos) = Some (a', t', ret) ∧
    tp' = Ptr (<[Z.to_nat (uchar b mod 64) := t']> blk).
Proof.
  cbn [walk]. intros H.
  assert (∀ a1 blk,
    (s !! pos ≫= λ b, slot blk (uchar b mod 64) ≫= λ t,
       walk n a1 t s (S pos) ≫= λ '(a2, t', ret),
         Some (a2, Ptr (<[Z.to_nat (uchar b mod 64) := t']> blk), ret))
    = Some (a', tp', ret) →
    ∃ b t t', s !! pos = Some b ∧ slot blk (uchar b mod 64) = Some t ∧
      walk n a1 t s (S pos) = Some (a', t', ret) ∧
      tp' = Ptr (<[Z.to_nat (uchar b mod 64) := t']> blk)) as Hdescend.
  { intros a1 blk Hd. destruct (s !! pos) as [b|]; cbn in Hd; [|done].
    destruct (slot blk (uchar b mod 64)) as [t|] eqn:Ht; cbn in Hd; [|done].
    destruct (walk n a1 t s (S pos)) as [[[a2 t'] ret']|] eqn:Hw;
      cbn in Hd; [|done].
    simplify_eq. by eexists _, _, _. }
  destruct tp as [m|blk]; cbn in H.
  - destruct (Z.eqb_spec m 0) as [->|]; [|done]. cbn in H.
    destruct (calloc a) as [a1 [blk|]] eqn:Hc.
    + apply calloc_Some in Hc as [-> ->].
      apply Hdescend in H as (b & t & t' & ? & ? & ? & ?).
      right. exists a1, zero_block, b, t, t'. eauto 10.
    + simplify_eq. by left.
  - apply Hdescend in H as (b & t & t' & ? & ? & ? & ?).
    right. exists a, blk, b, t, t'. eauto 10.
Qed.

Lemma low6_range b : 0 ≤ uchar b mod 64 < 64.
Proof. apply Z.mod_pos_bound. lia. Qed.

Lemma lor_bit_range m c :
  0 ≤ m < 2 ^ 64 → 0 ≤ c < 64 → 0 ≤ Z.lor m (Z.shiftl 1 c) < 2 ^ 64.
Proof.
  intros Hm Hc. rewrite Z.shiftl_1_l.
  assert (0 < 2 ^ c < 2 ^ 64) as Hp.
  { split; [apply Z.pow_pos_nonneg; lia|apply Z.pow_lt_mono_r; lia]. }
  assert (0 ≤ Z.lor m (2 ^ c)) as Hnn by (apply Z.lor_nonneg; lia).
  split; [done|].
  destruct (Z.eq_dec (Z.lor m (2 ^ c)) 0) as [->|Hne]; [lia|].
  apply Z.log2_lt_pow2; [lia|]. rewrite Z.log2_lor by lia.
  assert (Z.log2 (2 ^ c) < 64) by (apply Z.log2_lt_pow2; lia).
  destruct (Z.eq_dec m 0) as [->|]; [cbn; lia|].
  assert (Z.log2 m < 64) by (apply Z.log2_lt_pow2; lia). lia.
Qed.

Lemma shaped_null n : shaped n (Bits 0) = true.
Proof. by destruct n. Qed.

Lemma shaped_Ptr n blk :
  length blk = 64%nat → (∀ c t, blk !! c = Some t → shaped n t = true) →
  shaped (S n) (Ptr blk) = true.
Proof.
  intros Hlen Hsub. cbn. apply andb_true_intro. split; [by apply Nat.eqb_eq|].
  apply forallb_forall. intros t [c Hc]%list_elem_of_In%list_elem_of_lookup.
  by eapply Hsub.
Qed.

(** The block a slot leads to once [addutf] has made sure there is one. *)
Lemma shaped_block n tp blk a a1 :
  shaped (S n) tp = true →
  tp = Ptr blk ∧ a1 = a ∨ tp = Bits 0 ∧ a = true :: a1 ∧ blk = zero_block →
  length blk = 64%nat ∧ (∀ c t, blk !! c = Some t → shaped n t = true) ∧
  ∀ r, elems (S n) tp r = elems (S n) (Ptr blk) r.
Proof.
  intros Ht [[-> _]|(-> & _ & ->)].
  - apply shaped_node in Ht as [?|(blk' & ? & ? & ?)]; [done|]. by simplify_eq.
  - split_and!; [done| |].
    + intros c t [-> _]%lookup_replicate. apply shaped_null.
    + intros r. by rewrite elems_zero_block.
Qed.

Lemma walk_shaped n :
  ∀ a tp s pos a' tp' ret,
    shaped n tp = true → walk n a tp s pos = Some (a', tp', ret) →
    shaped n tp' = true.
Proof.
  induction n as [|n IH]; intros a tp s pos a' tp' ret Ht Hw.
  - apply walk_leaf_inv in Hw as (b & m & _ & -> & _ & -> & _).
    apply shaped_leaf in Ht as (? & [= <-] & Hm). cbn.
    pose proof (lor_bit_range m _ Hm (low6_range b)).
    apply andb_true_intro. split; [apply Z.leb_le|apply Z.ltb_lt]; lia.
  - apply walk_node_inv in Hw
      as [(-> & -> & _)|(a1 & blk & b & t & t' & Hblk & _ & Hslot & Hw & ->)];
      [done|].
    destruct (shaped_block _ _ _ _ _ Ht Hblk) as (Hlen & Hsub & _).
    apply shaped_Ptr; [by rewrite length_insert|].
    intros c t2 [(_ & <- & _)|(_ & Hc)]%list_lookup_insert_Some; [|by eapply Hsub].
    eapply IH; [|done]. by eapply Hsub.
Qed.

Lemma walk_ret n :
  ∀ a tp s pos a' tp' p,
    walk n a tp s pos = Some (a', tp', Some p) →
    p = (pos + S n)%nat ∧ (pos + n < length s)%nat.
Proof.
  induction n as [|n IH]; intros a tp s pos a' tp' p Hw.
  - apply walk_leaf_inv in Hw as (b & m & Hb%lookup_lt_Some & _ & _ & _ & ?).
    simplify_eq. lia.
  - apply walk_node_inv in Hw
      as [(_ & _ & ? & _)|(a1 & blk & b & t & t' & _ & _ & _ & Hw & _)];
      [done|].
    apply IH in Hw. lia.
Qed.

Lemma take_drop_cons (s : list Z) pos b k :
  s !! pos = Some b → take (S k) (drop pos s) = b :: take k (drop (S pos) s).
Proof. intros Hb. by rewrite (drop_S _ _ _ Hb). Qed.

Lemma slot_insert blk c0 c (t' : child) :
  0 ≤ c0 → 0 ≤ c → is_Some (slot blk c0) →
  slot (<[Z.to_nat c0 := t']> blk) c = if decide (c = c0) then Some t' else slot blk c.
Proof.
  intros H0 Hc Hsome%lookup_lt_is_Some. unfold slot. case_decide as Heq.
  - subst. by apply list_lookup_insert_eq.
  - apply list_lookup_insert_ne. lia.
Qed.

Lemma walk_elems n :
  ∀ a tp s pos a' tp' p,
    shaped n tp = true → walk n a tp s pos = Some (a', tp', Some p) →
    ∀ r v, v ∈ elems n tp' r ↔
           v ∈ elems n tp r ∨ v = value r (take (S n) (drop pos s)).
Proof.
  induction n as [|n IH]; intros a tp s pos a' tp' p Ht Hw r v.
  - apply walk_leaf_inv in Hw as (b & m & Hb & -> & _ & -> & _).
    rewrite (take_drop_cons _ _ _ _ Hb). cbn [elems take value foldl].
    pose proof (low6_range b) as Hc0. rewrite !elem_of_bit_runes.
    setoid_rewrite Z.lor_spec. rewrite Z.shiftl_1_l.
    setoid_rewrite Z.pow2_bits_eqb; [|lia..]. split.
    + intros (c & Hc & Hbit & ->). apply orb_prop in Hbit as [Hbit|Heq].
      * left. by exists c.
      * right. apply Z.eqb_eq in Heq. by subst.
    + intros [(c & Hc & Hbit & ->)| ->].
      * exists c. by rewrite Hbit.
      * eexists. split_and!; [apply Hc0..|by rewrite Z.eqb_refl, orb_true_r|done].
  - apply walk_node_inv in Hw
      as [(_ & _ & ? & _)|(a1 & blk & b & t & t' & Hblk & Hb & Hslot & Hw & ->)];
      [done|].
    destruct (shaped_block _ _ _ _ _ Ht Hblk) as (Hlen & Hsub & ->).
    rewrite (take_drop_cons _ _ _ _ Hb). cbn [value foldl].
    fold (value (wrap32 (r * 64 + uchar b mod 64)) (take (S n) (drop (S pos) s))).
    pose proof (low6_range b) as Hc0.
    specialize (IH _ _ _ _ _ _ _ (Hsub _ _ Hslot) Hw).
    rewrite !elem_of_elems_node. split.
    + intros (c & t2 & Hc & Hc2 & Hv).
      rewrite slot_insert in Hc2 by (done || lia). case_decide; simplify_eq.
      * apply IH in Hv as [Hv|Hv]; [|by right]. left. by eexists _, _.
      * left. by eexists _, _.
    + intros [(c & t2 & Hc & Hc2 & Hv)| ->].
      * exists c. destruct (decide (c = uchar b mod 64)) as [->|Hne].
        -- exists t'. rewrite slot_insert, decide_True by (done || lia).
           split_and!; [lia..|done|]. apply IH. left. by simplify_eq.
        -- exists t2. rewrite slot_insert, decide_False by (done || lia). done.
      * exists (uchar b mod 64), t'.
        rewrite slot_insert, decide_True by (done || lia).
        split_and!; [lia..|done|]. apply IH. by right.
Qed.

Lemma blank_elems n : ∀ t r, blank n t = true → elems n t r = [].
Proof.
  induction n as [|n IH]; intros [m|blk] r Hb; cbn in Hb; try done.
  - unbool. subst. apply (elems_null 0).
  - apply elem_of_nil_inv. intros v (c & t & _ & Ht & Hv)%elem_of_elems_node.
    rewrite forallb_forall in Hb. rewrite IH in Hv; [by apply elem_of_nil in Hv|].
    apply Hb, list_elem_of_In. eapply list_elem_of_lookup_2, Ht.
Qed.

Lemma grown_refl n : ∀ t, shaped n t = true → grown n t t.
Proof.
  induction n as [|n IH]; intros t Ht; [done|].
  apply shaped_node in Ht as [->|(blk & -> & _ & Hsub)]; [done|]. cbn.
  apply Forall2_same_length_lookup. split; [done|].
  intros i x y Hx Hy. simplify_eq. by eapply IH, Hsub.
Qed.

Lemma grown_null_blank n t' : grown n (Bits 0) t' → blank n t' = true.
Proof. destruct n; cbn; [by intros ->|by intros [_ ?]]. Qed.

Lemma grown_elems n : ∀ t t' r, grown n t t' → elems n t' r = elems n t r.
Proof.
  induction n as [|n IH]; intros t t' r Hg; cbn in Hg; [by subst|].
  destruct t as [m|blk].
  - destruct Hg as [[= ->] Hb]. by rewrite blank_elems.
  - destruct t' as [|blk']; [done|]. cbn [elems].
    apply list_bind_ext; [|done]. intros c. unfold slot.
    destruct (blk !! Z.to_nat c) as [t|] eqn:Ht.
    + destruct (Forall2_lookup_l _ _ _ _ _ Hg Ht) as (t' & -> & Hg'). by apply IH.
    + apply lookup_ge_None in Ht. rewrite (Forall2_length _ _ _ Hg) in Ht.
      apply lookup_ge_None in Ht. by rewrite Ht.
Qed.

Lemma walk_node_ptr n a blk s pos b t a' t' ret :
  s !! pos = Some b → slot blk (uchar b mod 64) = Some t →
  walk n a t s (S pos) = Some (a', t', ret) →
  walk (S n) a (Ptr blk) s pos
  = Some (a', Ptr (<[Z.to_nat (uchar b mod 64) := t']> blk), ret).
Proof. intros Hb Ht Hw. cbn. rewrite Hb. cbn. rewrite Ht. cbn. by rewrite Hw. Qed.

Lemma walk_node_calloc n a1 s pos :
  walk (S n) (true :: a1) (Bits 0) s pos = walk (S n) a1 (Ptr zero_block) s pos.
Proof. done. Qed.

Lemma walk_node_oom n a a' s pos :
  calloc a = (a', None) → walk (S n) a (Bits 0) s pos = Some (a', Bits 0, None).
Proof. intros Hc. cbn. by rewrite Hc. Qed.

Lemma walk_null_grown n :
  ∀ a tp s pos a' tp',
    shaped n tp = true → walk n a tp s pos = Some (a', tp', None) →
    grown n tp tp'.
Proof.
  induction n as [|n IH]; intros a tp s pos a' tp' Ht Hw.
  - by apply walk_leaf_inv in Hw as (b & m & _ & _ & _ & _ & ?).
  - apply walk_node_inv in Hw
      as [(-> & -> & _)|(a1 & blk & b & t & t' & Hblk & _ & Hslot & Hw & ->)];
      [done|].
    destruct (shaped_block _ _ _ _ _ Ht Hblk) as (Hlen & Hsub & _).
    specialize (IH _ _ _ _ _ _ (Hsub _ _ Hslot) Hw).
    destruct Hblk as [[-> _]|(-> & _ & ->)].
    + cbn. rewrite <- (list_insert_id _ _ _ Hslot) at 1.
      apply Forall2_insert; [|done].
      apply Forall2_same_length_lookup. split; [done|].
      intros i x y Hx Hy. simplify_eq. by eapply grown_refl, Hsub.
    + split; [done|]. cbn. apply forallb_forall.
      intros x [i Hi]%list_elem_of_In%list_elem_of_lookup.
      apply list_lookup_insert_Some in Hi as [(_ & <- & _)|(_ & Hi)].
      * apply slot_zero_block in Hslot as ->. by apply grown_null_blank.
      * unfold zero_block in Hi. apply lookup_replicate in Hi as [-> _].
        by destruct n.
Qed.

Lemma walk_again n :
  ∀ a tp s pos a' tp' p a2,
    walk n a tp s pos = Some (a', tp', Some p) →
    walk n a2 tp' s pos = Some (a2, tp', Some p).
Proof.
  induction n as [|n IH]; intros a tp s pos a' tp' p a2 Hw.
  - apply walk_leaf_inv in Hw as (b & m & Hb & -> & _ & -> & ->).
    cbn. rewrite Hb. cbn. by rewrite <- Z.lor_assoc, Z.lor_diag.
  - apply walk_node_inv in Hw
      as [(_ & _ & ? & _)|(a1 & blk & b & t & t' & _ & Hb & Hslot & Hw & ->)];
      [done|].
    erewrite walk_node_ptr; [|done| |by eapply IH].
    + by rewrite list_insert_insert_eq.
    + apply list_lookup_insert_eq. by eapply lookup_lt_Some.
Qed.

Lemma walk_null_cause n :
  ∀ a tp s pos a' tp',
    walk n a tp s pos = Some (a', tp', None) →
    ∃ k, (k < n)%nat ∧ take k a = replicate k true ∧
         calloc (drop k a) = (a', None).
Proof.
  induction n as [|n IH]; intros a tp s pos a' tp' Hw.
  - by apply walk_leaf_inv in Hw as (b & m & _ & _ & _ & _ & ?).
  - apply walk_node_inv in Hw
      as [(_ & _ & _ & Hc)|(a1 & blk & b & t & t' & Hblk & _ & _ & Hw & _)].
    + exists 0%nat. split_and!; [lia|done|done].
    + apply IH in Hw as (k & Hk & Htake & Hc).
      destruct Hblk as [[_ ->]|(_ & -> & _)].
      * exists k. split_and!; [lia|done|done].
      * exists (S k). split_and!; [lia| |done]. cbn. by rewrite Htake.
Qed.

Lemma walk_defined n :
  ∀ a tp s pos,
    shaped n tp = true → (pos + n < length s)%nat →
    is_Some (walk n a tp s pos).
Proof.
  induction n as [|n IH]; intros a tp s pos Ht Hlen.
  - apply shaped_leaf in Ht as (m & -> & _).
    destruct (lookup_lt_is_Some_2 s pos) as [b Hb]; [lia|].
    cbn. rewrite Hb. by cbn.
  - assert (∀ a1 blk, shaped (S n) (Ptr blk) = true →
                      is_Some (walk (S n) a1 (Ptr blk) s pos)) as Hptr.
    { intros a1 blk [?|(? & [= <-] & Hblk & Hsub)]%shaped_node; [done|].
      destruct (lookup_lt_is_Some_2 s pos) as [b Hb]; [lia|].
      destruct (slot_is_Some blk (uchar b mod 64) Hblk (low6_range b)) as [t Hslot].
      destruct (IH a1 t s (S pos)) as [[[a' t'] ret] Hw];
        [by eapply Hsub|lia|].
      by erewrite walk_node_ptr. }
    apply shaped_node in Ht as Ht'. destruct Ht' as [->|(blk & -> & _)]; [|eauto].
    destruct (calloc a) as [a1 [blk|]] eqn:Hc.
    + apply calloc_Some in Hc as [-> ->]. rewrite walk_node_calloc.
      apply Hptr. apply shaped_Ptr; [done|].
      intros c t [-> _]%lookup_replicate. apply shaped_null.
    + by erewrite walk_node_oom.
Qed.

Lemma shaped_zero_block n : shaped (S n) (Ptr zero_block) = true.
Proof.
  apply shaped_Ptr; [done|]. intros c t [-> _]%lookup_replicate.
  apply shaped_null.
Qed.

Lemma walk_succeeds n :
  ∀ m a0 tp s pos,
    shaped n tp = true → (n ≤ m)%nat → (pos + n < length s)%nat →
    ∃ k tp', (k ≤ n)%nat ∧
      walk n (replicate m true ++ a0) tp s pos
      = Some (replicate (m - k) true ++ a0, tp', Some (pos + S n)%nat).
Proof.
  induction n as [|n IH]; intros m a0 tp s pos Ht Hm Hlen.
  - apply shaped_leaf in Ht as (b0 & -> & _).
    destruct (lookup_lt_is_Some_2 s pos) as [b Hb]; [lia|].
    exists 0%nat. eexists. split; [done|]. cbn. rewrite Hb. cbn.
    by rewrite Nat.sub_0_r, Nat.add_1_r.
  - assert (∀ m blk, shaped (S n) (Ptr blk) = true → (n ≤ m)%nat →
      ∃ k tp', (k ≤ n)%nat ∧
        walk (S n) (replicate m true ++ a0) (Ptr blk) s pos
        = Some (replicate (m - k) true ++ a0, tp', Some (pos + S (S n))%nat))
      as Hptr.
    { intros m' blk [?|(? & [= <-] & Hblk & Hsub)]%shaped_node Hm'; [done|].
      destruct (lookup_lt_is_Some_2 s pos) as [b Hb]; [lia|].
      destruct (slot_is_Some blk (uchar b mod 64) Hblk (low6_range b)) as [t Hslot].
      destruct (IH m' a0 t s (S pos)) as (k & t' & Hk & Hw);
        [by eapply Hsub|lia..|].
      exists k. eexists. split; [done|]. erewrite walk_node_ptr; [|done..].
      do 3 f_equal. lia. }
    apply shaped_node in Ht as Ht'. destruct Ht' as [->|(blk & -> & _)].
    + destruct m as [|m]; [lia|]. cbn [replicate app].
      rewrite walk_node_calloc.
      destruct (Hptr m zero_block) as (k & tp' & Hk & Hw);
        [apply shaped_zero_block|lia|].
      exists (S k), tp'. split; [lia|]. by rewrite Hw.
    + destruct (Hptr m blk) as (k & tp' & Hk & Hw); [done|lia|].
      exists k, tp'. split; [lia|done].
Qed.

(** ** addutf at the root *)

Lemma uchar_range b : 0 ≤ uchar b < 256.
Proof. apply Z.mod_pos_bound. lia. Qed.

Lemma lead_exists b pos :
  ¬ (128 ≤ uchar b < 192) → ∃ c n start, lead b pos c n start.
Proof.
  intros Hb. pose proof (uchar_range b) as Hr.
  destruct (Z.le_gt_cases 192 (uchar b)) as [Hhi|Hlo].
  - assert (0 ≤ uchar b mod 64 < 64) as Hc by (apply Z.mod_pos_bound; lia).
    destruct (slot_is_Some clo6 (uchar b mod 64) eq_refl Hc) as [n Hn].
    exists (uchar b mod 64), n, (S pos). split_and!; [done|lia..|]. left. done.
  - assert (0 ≤ uchar b / 64 < 2) as Hc.
    { split; [apply Z.div_pos; lia|apply Z.div_lt_upper_bound; lia]. }
    exists (uchar b / 64), 0, pos. split_and!; [|lia..|right; split_and!; (done||lia)].
    assert (uchar b / 64 = 0 ∨ uchar b / 64 = 1) as [->| ->] by lia; done.
Qed.

Lemma addutf_lead a set s pos b c n start :
  s !! pos = Some b → lead b pos c n start →
  addutf a set s pos
  = tp ← slot set c;
    '(a', tp', ret) ← walk (Z.to_nat n) a tp s start;
    Some (a', <[Z.to_nat c := tp']> set, ret).
Proof.
  intros Hb (Hn & Hc & [(Hhi & -> & ->)|(Hlo & -> & -> & ->)]);
    unfold addutf; rewrite Hb; cbn.
  - apply Z.leb_le in Hhi as ->. by rewrite Hn.
  - assert ((192 <=? uchar b) = false) as -> by (apply Z.leb_gt; lia).
    apply Z.ltb_lt in Hlo as ->. by rewrite Nat.sub_0_r.
Qed.

Lemma addutf_continuation a set s pos b :
  s !! pos = Some b → 128 ≤ uchar b < 192 →
  addutf a set s pos = Some (a, set, None).
Proof.
  intros Hb Hr. unfold addutf. rewrite Hb. cbn.
  assert ((192 <=? uchar b) = false) as -> by (apply Z.leb_gt; lia).
  by assert ((uchar b <? 128) = false) as -> by (apply Z.ltb_ge; lia).
Qed.

Lemma addutf_inv a set s pos a' set' ret :
  addutf a set s pos = Some (a', set', ret) →
  ∃ b, s !! pos = Some b ∧
    (128 ≤ uchar b < 192 ∧ a' = a ∧ set' = set ∧ ret = None ∨
     ∃ c n start tp tp',
       lead b pos c n start ∧ slot set c = Some tp ∧
       walk (Z.to_nat n) a tp s start = Some (a', tp', ret) ∧
       set' = <[Z.to_nat c := tp']> set).
Proof.
  intros H. destruct (s !! pos) as [b|] eqn:Hb; [|by unfold addutf in H; rewrite Hb in H].
  exists b. split; [done|].
  destruct (decide (128 ≤ uchar b < 192)) as [Hcont|Hlead].
  - rewrite (addutf_continuation _ _ _ _ _ Hb Hcont) in H. simplify_eq. by left.
  - destruct (lead_exists b pos Hlead) as (c & n & start & Hl).
    rewrite (addutf_lead _ _ _ _ _ _ _ _ Hb Hl) in H.
    destruct (slot set c) as [tp|] eqn:Htp; cbn in H; [|done].
    destruct (walk (Z.to_nat n) a tp s start) as [[[a2 tp'] ret']|] eqn:Hw;
      cbn in H; [|done].
    simplify_eq. right. by eexists c, n, start, tp, tp'.
Qed.

Lemma wf_intro set :
  length set = 64%nat →
  (∀ c, 0 ≤ c < 64 →
        ∃ n t, slot clo6 c = Some n ∧ slot set c = Some t ∧
               shaped (Z.to_nat n) t = true) →
  wf set = true.
Proof.
  intros Hlen Hall. unfold wf. apply andb_true_intro.
  split; [by apply Nat.eqb_eq|]. apply forallb_forall.
  intros c Hc%list_elem_of_In%elem_of_seqZ.
  destruct (Hall c) as (n & t & -> & -> & Ht); [lia|done].
Qed.

Lemma wf_length set : wf set = true → length set = 64%nat.
Proof. unfold wf. intros H. by unbool. Qed.

Lemma wf_insert set c n tp' :
  wf set = true → 0 ≤ c < 64 → slot clo6 c = Some n →
  shaped (Z.to_nat n) tp' = true →
  wf (<[Z.to_nat c := tp']> set) = true.
Proof.
  intros Hwf Hc Hn Htp'. pose proof (wf_length _ Hwf) as Hlen.
  apply wf_intro; [by rewrite length_insert|].
  intros c' Hc'. rewrite slot_insert by (lia || by apply slot_is_Some).
  case_decide as Heq.
  - subst. by exists n, tp'.
  - destruct (wf_slot _ c' Hwf Hc') as (n' & t & ? & ? & _ & ?). by exists n', t.
Qed.

Lemma elem_of_runes set v :
  v ∈ runes set ↔
  ∃ c n t, 0 ≤ c < 64 ∧ slot clo6 c = Some n ∧ slot set c = Some t ∧
           v ∈ elems (Z.to_nat n) t (wrap32 (c mod Z.shiftr 64 n)).
Proof.
  unfold runes. rewrite list_elem_of_bind. split.
  - intros (c & Hv & Hc%elem_of_seqZ).
    destruct (slot clo6 c) as [n|] eqn:Hn; [|by apply elem_of_nil in Hv].
    destruct (slot set c) as [t|] eqn:Ht; [|by apply elem_of_nil in Hv].
    exists c, n, t. split_and!; (done || lia).
  - intros (c & n & t & Hc & Hn & Ht & Hv). exists c. rewrite Hn, Ht.
    split; [done|apply elem_of_seqZ; lia].
Qed.

Lemma lead_inj b pos c n start c' n' start' :
  lead b pos c n start → lead b pos c' n' start' →
  c' = c ∧ n' = n ∧ start' = start.
Proof.
  intros (Hn & _ & H) (Hn' & _ & H').
  destruct H as [(? & -> & ->)|(? & -> & -> & ->)],
    H' as [(? & -> & ->)|(? & -> & -> & ->)]; try lia.
  split; [done|]. split; [congruence|done].
Qed.

(** A successful [addutf]: one root slot changes, and it gains exactly the
    rune of the bytes read. *)
Lemma addutf_success a set s pos a' set' p :
  wf set = true → addutf a set s pos = Some (a', set', Some p) →
  wf set' = true ∧
  ∃ b c n start tp tp',
    s !! pos = Some b ∧ lead b pos c n start ∧ slot set c = Some tp ∧
    set' = <[Z.to_nat c := tp']> set ∧ p = (start + S (Z.to_nat n))%nat ∧
    (start + Z.to_nat n < length s)%nat ∧
    ∀ r v, v ∈ elems (Z.to_nat n) tp' r ↔
           v ∈ elems (Z.to_nat n) tp r ∨
           v = value r (take (S (Z.to_nat n)) (drop start s)).
Proof.
  intros Hwf (b & Hb & [(_ & _ & _ & ?)|H])%addutf_inv; [done|].
  destruct H as (c & n & start & tp & tp' & Hl & Htp & Hw & ->).
  pose proof Hl as (Hn & Hc & _).
  destruct (wf_slot _ c Hwf Hc) as (n' & tp2 & Hn' & Htp2 & _ & Hsh).
  simplify_eq. split.
  - eapply wf_insert; [done..|]. by eapply walk_shaped.
  - exists b, c, n, start, tp, tp'. split_and!; try done.
    + by apply walk_ret in Hw as [? ?].
    + by apply walk_ret in Hw as [? ?].
    + by eapply walk_elems.
Qed.

Lemma addutf_runes a set s pos a' set' p :
  wf set = true → addutf a set s pos = Some (a', set', Some p) →
  ∃ v0, rune_at s pos v0 ∧ ∀ v, v ∈ runes set' ↔ v ∈ runes set ∨ v = v0.
Proof.
  intros Hwf H.
  destruct (addutf_success _ _ _ _ _ _ _ Hwf H)
    as (Hwf' & b & c & n & start & tp & tp' & Hb & Hl & Htp & -> & _ & _ & Hel).
  pose proof Hl as (Hn & Hc & _).
  eexists. split; [by exists b, c, n, start|].
  intros v. rewrite !elem_of_runes. split.
  - intros (c' & n' & t & Hc' & Hn' & Ht & Hv).
    rewrite slot_insert in Ht by (lia || by rewrite Htp). case_decide; simplify_eq.
    + apply Hel in Hv as [Hv|Hv]; [left|by right]. by exists c, n, tp.
    + left. by exists c', n', t.
  - intros [(c' & n' & t & Hc' & Hn' & Ht & Hv)| ->].
    + exists c', n'. destruct (decide (c' = c)) as [->|Hne].
      * exists tp'. rewrite slot_insert, decide_True by (lia || by rewrite Htp).
        simplify_eq. split_and!; try done; try lia. apply Hel. by left.
      * exists t. rewrite slot_insert, decide_False by (lia || by rewrite Htp).
        done.
    + exists c, n, tp'. rewrite slot_insert, decide_True by (lia || by rewrite Htp).
      split_and!; try done; try lia. apply Hel. by right.
Qed.

(** ** The order of the traversal *)

Lemma seqZ_sorted n : ∀ m, StronglySorted Z.lt (seqZ m (Z.of_nat n)).
Proof.
  induction n as [|n IH]; intros m; [constructor|].
  rewrite seqZ_cons by lia. constructor.
  - replace (Z.pred (Z.of_nat (S n))) with (Z.of_nat n) by lia. apply IH.
  - apply Forall_forall. intros x Hx%elem_of_seqZ. lia.
Qed.

Lemma sorted_bind (F : Z → list Z) (cs : list Z) :
  StronglySorted Z.lt cs →
  (∀ c, c ∈ cs → StronglySorted Z.lt (F c)) →
  (∀ c c' v v', c ∈ cs → c' ∈ cs → c < c' → v ∈ F c → v' ∈ F c' → v < v') →
  StronglySorted Z.lt (cs ≫= F).
Proof.
  induction 1 as [|c cs Hs IH Hall]; intros Hblk Hcross; [constructor|].
  rewrite bind_cons. apply StronglySorted_app_2.
  - intros v v' Hv (c' & Hv' & Hc')%list_elem_of_bind.
    apply (Hcross c c'); [apply list_elem_of_here|by apply list_elem_of_further| |done..].
    rewrite Forall_forall in Hall. by apply Hall.
  - apply Hblk, list_elem_of_here.
  - apply IH.
    + intros c' Hc'. by apply Hblk, list_elem_of_further.
    + intros c1 c2 v v' H1 H2. apply Hcross; by apply list_elem_of_further.
Qed.

Lemma sorted_NoDup (l : list Z) : StronglySorted Z.lt l → NoDup l.
Proof.
  induction 1 as [|x l Hs IH Hall]; constructor; [|done].
  intros Hx. rewrite Forall_forall in Hall. specialize (Hall x Hx). lia.
Qed.

Lemma wrap32_small x : 0 ≤ x < 2 ^ 32 → wrap32 x = x.
Proof. apply Z.mod_small. Qed.

(** Below a slot reached with partial value [r], with [d] levels to go, the
    runes are increasing and lie in the window of [r], as long as the window
    fits 32 bits. *)
Lemma elems_sorted d :
  ∀ t r, 0 ≤ r → (r + 1) * 64 ^ Z.of_nat (S d) ≤ 2 ^ 32 →
    StronglySorted Z.lt (elems d t r) ∧
    ∀ v, v ∈ elems d t r →
         r * 64 ^ Z.of_nat (S d) ≤ v < (r + 1) * 64 ^ Z.of_nat (S d).
Proof.
  induction d as [|d IH]; intros t r Hr Hfit.
  - destruct t as [m|]; [|split; [constructor|by intros v ?%elem_of_nil]].
    change (64 ^ Z.of_nat 1) with 64 in *. cbn [elems].
    assert (∀ c, 0 ≤ c < 64 → wrap32 (r * 64 + c) = r * 64 + c) as Hw
      by (intros; apply wrap32_small; lia).
    split.
    + unfold bit_runes. apply sorted_bind; [apply (seqZ_sorted 64)| |].
      * intros c _. destruct (_ =? 0); repeat constructor.
      * intros c c' v v' Hc%elem_of_seqZ Hc'%elem_of_seqZ Hlt Hv Hv'.
        destruct (Z.land m (Z.shiftl 1 c) =? 0); [by apply elem_of_nil in Hv|].
        destruct (Z.land m (Z.shiftl 1 c') =? 0); [by apply elem_of_nil in Hv'|].
        apply list_elem_of_singleton in Hv, Hv'. subst.
        rewrite !Hw by lia. lia.
    + intros v (c & Hc & _ & ->)%elem_of_bit_runes. rewrite Hw by lia. lia.
  - destruct t as [|blk]; [split; [constructor|by intros v ?%elem_of_nil]|].
    set (K := 64 ^ Z.of_nat (S d)) in *.
    assert (64 ^ Z.of_nat (S (S d)) = 64 * K) as HK.
    { unfold K. rewrite (Nat2Z.inj_succ (S d)). apply Z.pow_succ_r. lia. }
    rewrite HK in *.
    assert (0 < K) as HKpos by (apply Z.pow_pos_nonneg; lia).
    assert (∀ c, 0 ≤ c < 64 →
              wrap32 (r * 64 + c) = r * 64 + c ∧ 0 ≤ r * 64 + c ∧
              (r * 64 + c + 1) * K ≤ 2 ^ 32) as Hw.
    { intros c Hc.
      assert ((r * 64 + c + 1) * K ≤ (r + 1) * (64 * K)) by nia.
      split_and!; [apply wrap32_small; nia|lia|lia]. }
    assert (∀ c t' v, 0 ≤ c < 64 → v ∈ elems d t' (wrap32 (r * 64 + c)) →
              (r * 64 + c) * K ≤ v < (r * 64 + c + 1) * K) as Hwin.
    { intros c t' v Hc Hv. destruct (Hw c Hc) as (Heq & ? & ?).
      rewrite Heq in Hv. by apply (IH t' (r * 64 + c)). }
    split.
    + cbn [elems]. apply sorted_bind; [apply (seqZ_sorted 64)| |].
      * intros c Hc%elem_of_seqZ. destruct (slot blk c) as [t'|]; [|constructor].
        destruct (Hw c) as (-> & ? & ?); [lia|]. by apply IH.
      * intros c c' v v' Hc%elem_of_seqZ Hc'%elem_of_seqZ Hlt Hv Hv'.
        destruct (slot blk c) as [t1|]; [|by apply elem_of_nil in Hv].
        destruct (slot blk c') as [t2|]; [|by apply elem_of_nil in Hv'].
        apply Hwin in Hv, Hv'; [|lia..]. nia.
    + intros v (c & t' & Hc & _ & Hv)%elem_of_elems_node.
      apply Hwin in Hv; [|done]. nia.
Qed.

(** ** UTF-8 *)

Lemma forall_below (P : Z → bool) (k : Z) :
  forallb P (seqZ 0 k) = true → ∀ c, 0 ≤ c < k → P c = true.
Proof.
  intros H c Hc. rewrite forallb_forall in H.
  apply H, list_elem_of_In, elem_of_seqZ. lia.
Qed.

Lemma clo6_by_class c : 0 ≤ c < 64 → slot clo6 c = Some (clo6_class c).
Proof.
  intros Hc.
  pose proof (forall_below
    (λ c, match slot clo6 c with
          | Some n => n =? clo6_class c
          | None => false
          end) 64 ltac:(by vm_compute) c Hc) as H.
  cbv beta in H. destruct (slot clo6 c) as [n|]; [|done]. unbool. by subst.
Qed.

Lemma windows_ordered c c' :
  0 ≤ c → c < c' → c' < 62 → window_hi c ≤ window_lo c'.
Proof.
  intros H0 Hlt H62.
  pose proof (forall_below
    (λ c, forallb (λ c', (c' <=? c) || (window_hi c <=? window_lo c'))
            (seqZ 0 62)) 62 ltac:(by vm_compute) c ltac:(lia)) as H.
  cbv beta in H. pose proof (forall_below _ _ H c' ltac:(lia)) as H1.
  cbv beta in H1. apply orb_prop in H1 as [?%Z.leb_le|?%Z.leb_le]; lia.
Qed.

Lemma window_fits c : 0 ≤ c < 62 → window_hi c ≤ 2 ^ 32.
Proof.
  intros Hc. apply Z.leb_le.
  by apply (forall_below (λ c, window_hi c <=? 2 ^ 32) 62); [vm_compute|].
Qed.

Lemma root_partial c n :
  0 ≤ c < 62 → slot clo6 c = Some n →
  wrap32 (c mod Z.shiftr 64 n) = c mod Z.shiftr 64 n ∧
  0 ≤ c mod Z.shiftr 64 n.
Proof.
  intros Hc Hn.
  pose proof (forall_below
    (λ c, match slot clo6 c with
          | Some n => (wrap32 (c mod Z.shiftr 64 n) =? c mod Z.shiftr 64 n)
                      && (0 <=? c mod Z.shiftr 64 n)
          | None => false
          end) 62 ltac:(by vm_compute) c Hc) as H.
  cbv beta in H. rewrite Hn in H. unbool. done.
Qed.

Lemma holds_cons s pos b bs :
  holds s pos (b :: bs) → s !! pos = Some b ∧ holds s (S pos) bs.
Proof.
  unfold holds. cbn [length]. intros H.
  destruct (s !! pos) as [b'|] eqn:Hb.
  - rewrite (take_drop_cons _ _ _ _ Hb) in H. by simplify_eq.
  - apply lookup_ge_None in Hb. by rewrite drop_ge in H by done.
Qed.

Lemma clo6_of_class c n : 0 ≤ c < 64 → clo6_class c = n → slot clo6 c = Some n.
Proof. intros Hc <-. by apply clo6_by_class. Qed.

(** One case of [utf8_decodes]: the lead byte [b0], [k] continuation bytes
    below the root. *)
Ltac utf8_case Hh Hb Hlead Hn b0 n0 k :=
  let Hu := fresh "Hu" in
  let Hcl := fresh "Hcl" in
  apply holds_cons in Hh as [? Hh];
  match type of Hb with
  | _ = Some ?b => assert (b = b0) as -> by congruence
  end;
  assert (uchar b0 = b0) as Hu
    by (apply Z.mod_small; Z.div_mod_to_equations; lia);
  rewrite Hu in *;
  destruct Hlead as [(_ & -> & ->)|(? & _)];
    [|Z.div_mod_to_equations; lia];
  rewrite clo6_by_class in Hn by done;
  match type of Hn with
  | Some (clo6_class ?c) = Some ?n =>
      assert (clo6_class c = n0) as Hcl
        by (unfold clo6_class;
            repeat match goal with
              | |- context [?x <? ?y] => destruct (Z.ltb_spec x y)
              end;
            first [reflexivity|Z.div_mod_to_equations; lia]);
      assert (n = n0) as -> by congruence
  end;
  unfold holds in Hh; cbn [length] in Hh;
  change (Z.to_nat n0) with k; rewrite Hh;
  cbn [value foldl length min_rune];
  unfold wrap32, uchar;
  change (2 ^ 32) with 4294967296;
  split_and!; [|lia..].

Lemma utf8_decodes r s pos b c n start :
  rune_ok r → holds s pos (utf8 r) → s !! pos = Some b → lead b pos c n start →
  value (wrap32 (c mod Z.shiftr 64 n)) (take (S (Z.to_nat n)) (drop start s)) = r ∧
  n ≤ 4 ∧ min_rune n ≤ r ∧ (start + S (Z.to_nat n) = pos + length (utf8 r))%nat.
Proof.
  intros [Hr0 Hr1] Hh Hb (Hn & Hc & Hlead). unfold utf8 in *.
  change (2 ^ 31) with 2147483648 in Hr1.
  destruct (Z.ltb_spec r 128).
  { apply holds_cons in Hh as Hh'. destruct Hh' as [Hb0 _].
    assert (b = r) as -> by congruence.
    assert (uchar r = r) as Hu by (apply Z.mod_small; lia). rewrite Hu in *.
    destruct Hlead as [(? & _)|(_ & -> & -> & ->)]; [lia|].
    unfold holds in Hh. cbn [length] in Hh. change (Z.to_nat 0) with 0%nat.
    rewrite Hh. cbn [value foldl length min_rune]. rewrite Hu.
    change (Z.shiftr 64 0) with 64. unfold wrap32.
    change (2 ^ 32) with 4294967296.
    split_and!; [|lia..]. Z.div_mod_to_equations. lia. }
  destruct (Z.ltb_spec r 2048).
  { utf8_case Hh Hb Hlead Hn (192 + r / 64) 0 0%nat.
    change (Z.shiftr 64 0) with 64. Z.div_mod_to_equations. lia. }
  destruct (Z.ltb_spec r 65536).
  { utf8_case Hh Hb Hlead Hn (224 + r / 4096) 1 1%nat.
    change (Z.shiftr 64 1) with 32. Z.div_mod_to_equations. lia. }
  destruct (Z.ltb_spec r 2097152).
  { utf8_case Hh Hb Hlead Hn (240 + r / 262144) 2 2%nat.
    change (Z.shiftr 64 2) with 16. Z.div_mod_to_equations. lia. }
  destruct (Z.ltb_spec r 67108864).
  { utf8_case Hh Hb Hlead Hn (248 + r / 16777216) 3 3%nat.
    change (Z.shiftr 64 3) with 8. Z.div_mod_to_equations. lia. }
  utf8_case Hh Hb Hlead Hn (252 + r / 1073741824) 4 4%nat.
  change (Z.shiftr 64 4) with 4. Z.div_mod_to_equations. lia.
Qed.

Lemma class_le_4 c : 0 ≤ c < 64 → clo6_class c ≤ 4 → c < 62.
Proof.
  unfold clo6_class. intros Hc.
  repeat match goal with
    | |- context [?x <? ?y] => destruct (Z.ltb_spec x y)
    end; lia.
Qed.

(** In a set without overlong sequences, what lies below root slot [c] is
    increasing and stays inside the window of [c]. *)
Lemma root_window set c n t v :
  canon set → 0 ≤ c < 64 → slot clo6 c = Some n → slot set c = Some t →
  v ∈ elems (Z.to_nat n) t (wrap32 (c mod Z.shiftr 64 n)) →
  c < 62 ∧
  StronglySorted Z.lt (elems (Z.to_nat n) t (wrap32 (c mod Z.shiftr 64 n))) ∧
  window_lo c ≤ v < window_hi c.
Proof.
  intros Hcanon Hc Hn Ht Hv.
  destruct (Hcanon c n t v Hc Hn Ht Hv) as [Hn4 Hmin].
  pose proof (clo6_range _ _ Hn) as Hn06.
  assert (c < 62) as Hc62.
  { apply class_le_4; [done|]. rewrite clo6_by_class in Hn by done. congruence. }
  destruct (root_partial c n ltac:(lia) Hn) as [Hw Hr0].
  pose proof (window_fits c ltac:(lia)) as Hfit.
  unfold window_lo, window_hi in *. rewrite Hn in *. rewrite Hw in *.
  replace (n + 1) with (Z.of_nat (S (Z.to_nat n))) in * by lia.
  destruct (elems_sorted (Z.to_nat n) t _ Hr0 Hfit) as [Hsorted Hrange].
  apply Hrange in Hv. split_and!; [done|done|lia|lia].
Qed.

Lemma runes_sorted set : canon set → StronglySorted Z.lt (runes set).
Proof.
  intros Hcanon. unfold runes.
  apply sorted_bind; [apply (seqZ_sorted 64)| |].
  - intros c Hc%elem_of_seqZ.
    destruct (slot clo6 c) as [n|] eqn:Hn; [|constructor].
    destruct (slot set c) as [t|] eqn:Ht; [|constructor].
    destruct (elems (Z.to_nat n) t (wrap32 (c mod Z.shiftr 64 n)))
      as [|v l] eqn:He; [constructor|].
    rewrite <- He.
    eapply (root_window set c n t v); [done|lia|done|done|].
    rewrite He. apply list_elem_of_here.
  - intros c c' v v' Hc%elem_of_seqZ Hc'%elem_of_seqZ Hlt Hv Hv'.
    destruct (slot clo6 c) as [n|] eqn:Hn; [|by apply elem_of_nil in Hv].
    destruct (slot set c) as [t|] eqn:Ht; [|by apply elem_of_nil in Hv].
    destruct (slot clo6 c') as [n'|] eqn:Hn'; [|by apply elem_of_nil in Hv'].
    destruct (slot set c') as [t'|] eqn:Ht'; [|by apply elem_of_nil in Hv'].
    destruct (root_window set c n t v) as (_ & _ & Hwin); [done|lia|done..|].
    destruct (root_window set c' n' t' v') as (? & _ & Hwin'); [done|lia|done..|].
    pose proof (windows_ordered c c'). lia.
Qed.

Lemma canon_empty : canon empty_set.
Proof.
  intros c n t v Hc Hn Ht%slot_zero_block Hv. subst.
  rewrite elems_null in Hv. by apply elem_of_nil in Hv.
Qed.

(** Adding the UTF-8 encoding of a rune: the set gains that rune, and
    nothing overlong. *)
Lemma addutf_utf8 a set s pos r a' set' p :
  wf set = true → canon set → rune_ok r → holds s pos (utf8 r) →
  addutf a set s pos = Some (a', set', Some p) →
  wf set' = true ∧ canon set' ∧ p = (pos + length (utf8 r))%nat ∧
  ∀ v, v ∈ runes set' ↔ v ∈ runes set ∨ v = r.
Proof.
  intros Hwf Hcanon Hr Hh H.
  destruct (addutf_runes _ _ _ _ _ _ _ Hwf H) as (v0 & Hv0 & Hrunes).
  destruct (addutf_success _ _ _ _ _ _ _ Hwf H)
    as (Hwf' & b & c & n & start & tp & tp' & Hb & Hl & Htp & -> & -> & _ & Hel).
  destruct (utf8_decodes _ _ _ _ _ _ _ Hr Hh Hb Hl) as (Hval & Hn4 & Hmin & Hlen).
  pose proof Hl as (Hn & Hc & _).
  split_and!; [done| |done|].
  - intros c' n' t v Hc' Hn' Ht Hv.
    rewrite slot_insert in Ht by (lia || by rewrite Htp). case_decide as Heq.
    + subst c'. assert (n' = n) as -> by congruence.
      assert (t = tp') as -> by congruence.
      apply Hel in Hv as [Hv|Hv]; [by eapply Hcanon|]. rewrite Hval in Hv. by subst.
    + by eapply Hcanon.
  - destruct Hv0 as (b2 & c2 & n2 & start2 & Hb2 & Hl2 & ->).
    assert (b2 = b) as -> by congruence.
    destruct (lead_inj _ _ _ _ _ _ _ _ Hl Hl2) as (-> & -> & ->).
    by rewrite Hval in Hrunes.
Qed.

Lemma addutf_wf a set s pos a' set' ret :
  wf set = true → addutf a set s pos = Some (a', set', ret) → wf set' = true.
Proof.
  intros Hwf (b & Hb & [(_ & _ & -> & _)|H])%addutf_inv; [done|].
  destruct H as (c & n & start & tp & tp' & (Hn & Hc & _) & Htp & Hw & ->).
  destruct (wf_slot _ c Hwf Hc) as (n' & tp2 & Hn' & Htp2 & _ & Hsh).
  assert (n' = n) as -> by congruence. assert (tp2 = tp) as -> by congruence.
  eapply wf_insert; [done..|]. by eapply walk_shaped.
Qed.

Lemma addutf_succeeds m a0 set s pos b c n start :
  wf set = true → s !! pos = Some b → lead b pos c n start →
  (Z.to_nat n ≤ m)%nat → (start + Z.to_nat n < length s)%nat →
  ∃ k set', (k ≤ Z.to_nat n)%nat ∧
    addutf (replicate m true ++ a0) set s pos
    = Some (replicate (m - k) true ++ a0, set',
            Some (start + S (Z.to_nat n))%nat).
Proof.
  intros Hwf Hb Hl Hm Hlen. pose proof Hl as (Hn & Hc & _).
  destruct (wf_slot _ c Hwf Hc) as (n' & tp & Hn' & Htp & _ & Hsh).
  assert (n' = n) as -> by congruence.
  destruct (walk_succeeds _ m a0 tp s start Hsh Hm Hlen) as (k & tp' & Hk & Hw).
  exists k. eexists. split; [done|].
  rewrite (addutf_lead _ _ _ _ _ _ _ _ Hb Hl), Htp. cbn. by rewrite Hw.
Qed.

Lemma holds_length s pos bs : holds s pos bs → (length bs ≤ length s - pos)%nat.
Proof.
  unfold holds. intros H. apply (f_equal length) in H.
  rewrite length_take, length_drop in H. lia.
Qed.

Lemma holds_app s pos bs1 bs2 :
  holds s pos (bs1 ++ bs2) →
  holds s pos bs1 ∧ holds s (pos + length bs1) bs2.
Proof.
  unfold holds. rewrite length_app. intros H.
  rewrite <- take_take_drop, drop_drop in H.
  apply app_inj_1 in H; [done|].
  apply (f_equal length) in H.
  rewrite length_app, !length_take, !length_app, !length_drop in *. lia.
Qed.

Lemma utf8_head r :
  rune_ok r → ∃ b bs, utf8 r = b :: bs ∧ ¬ (128 ≤ uchar b < 192).
Proof.
  intros [Hr0 Hr1]. change (2 ^ 31) with 2147483648 in Hr1.
  unfold utf8, uchar.
  repeat match goal with
    | |- context [?x <? ?y] => destruct (Z.ltb_spec x y)
    end; eexists _, _; (split; [done|]); Z.div_mod_to_equations; lia.
Qed.

(** Adding the runes of an encoded sequence one after the other, with an
    allocator that does not fail. *)
Lemma addutf_n_encode rs :
  ∀ m a0 set s pos,
    wf set = true → canon set → Forall rune_ok rs → holds s pos (encode rs) →
    (4 * length rs ≤ m)%nat →
    ∃ k set',
      addutf_n (length rs) (replicate m true ++ a0) set s pos
      = Some (replicate (m - k) true ++ a0, set',
              Some (pos + length (encode rs))%nat) ∧
      wf set' = true ∧ canon set' ∧
      ∀ v, v ∈ runes set' ↔ v ∈ runes set ∨ v ∈ rs.
Proof.
  induction rs as [|r rs IH]; intros m a0 set s pos Hwf Hcanon Hrs Hh Hm.
  - exists 0%nat, set. cbn. rewrite Nat.sub_0_r, Nat.add_0_r.
    split_and!; [done..|]. intros v. rewrite elem_of_nil. tauto.
  - apply Forall_cons in Hrs as [Hr Hrs]. unfold encode in Hh.
    rewrite bind_cons in Hh. apply holds_app in Hh as [Hh1 Hh2].
    destruct (utf8_head r Hr) as (b & bs & Heq & Hb).
    assert (s !! pos = Some b) as Hsb.
    { rewrite Heq in Hh1. by apply holds_cons in Hh1 as [? _]. }
    destruct (lead_exists b pos Hb) as (c & n & start & Hl).
    destruct (utf8_decodes _ _ _ _ _ _ _ Hr Hh1 Hsb Hl) as (_ & Hn4 & _ & Hlen).
    pose proof (holds_length _ _ _ Hh1) as Hfit.
    pose proof Hl as (Hn%clo6_range & _). cbn [length] in Hm.
    assert (pos ≤ start)%nat
      by (destruct Hl as (_ & _ & [(_ & _ & ->)|(_ & _ & _ & ->)]); lia).
    destruct (addutf_succeeds m a0 set s pos b c n start)
      as (k1 & set1 & Hk1 & Hadd); [done..|lia|lia|].
    rewrite Hlen in Hadd.
    destruct (addutf_utf8 _ _ _ _ _ _ _ _ Hwf Hcanon Hr Hh1 Hadd)
      as (Hwf1 & Hcanon1 & _ & Hrunes1).
    destruct (IH (m - k1)%nat a0 set1 s (pos + length (utf8 r))%nat)
      as (k2 & set2 & Hrun & Hwf2 & Hcanon2 & Hrunes2); [done..|lia|].
    exists (k1 + k2)%nat, set2. cbn [addutf_n length]. rewrite Hadd. cbn.
    rewrite Hrun. split_and!; [|done..|].
    + unfold encode. rewrite length_app.
      replace (m - (k1 + k2))%nat with (m - k1 - k2)%nat by lia.
      by rewrite Nat.add_assoc.
    + intros v. rewrite Hrunes2, Hrunes1, elem_of_cons. tauto.
Qed.

Lemma walk_ext n :
  ∀ a tp s s2 pos,
    (∀ i, (pos ≤ i ≤ pos + n)%nat → s2 !! i = s !! i) →
    walk n a tp s2 pos = walk n a tp s pos.
Proof.
  induction n as [|n IH]; intros a tp s s2 pos Hagree; cbn [walk].
  - by rewrite Hagree by lia.
  - rewrite (Hagree pos) by lia.
    assert (∀ a1 t, walk n a1 t s2 (S pos) = walk n a1 t s (S pos)) as Hrec
      by (intros; apply IH; intros; apply Hagree; lia).
    destruct (ptr_of tp) as [[blk|]|]; cbn; [| |done].
    + destruct (s !! pos) as [b|]; cbn; [|done].
      destruct (slot blk _) as [t|]; cbn; [|done]. by rewrite Hrec.
    + destruct (calloc a) as [a1 [blk|]]; [|done].
      destruct (s !! pos) as [b|]; cbn; [|done].
      destruct (slot blk _) as [t|]; cbn; [|done]. by rewrite Hrec.
Qed.

Lemma addutf_again a set s pos a1 set1 p a2 :
  addutf a set s pos = Some (a1, set1, Some p) →
  addutf a2 set1 s pos = Some (a2, set1, Some p).
Proof.
  intros (b & Hb & [(_ & _ & _ & ?)|H])%addutf_inv; [done|].
  destruct H as (c & n & start & tp & tp' & Hl & Htp & Hw & ->).
  rewrite (addutf_lead _ _ _ _ _ _ _ _ Hb Hl). unfold slot in *.
  rewrite list_lookup_insert_eq by (by eapply lookup_lt_Some). cbn.
  rewrite (walk_again _ _ _ _ _ _ _ _ a2 Hw). cbn.
  by rewrite list_insert_insert_eq.
Qed.

Lemma runes_insert_same set c n tp tp' :
  0 ≤ c < 64 → slot clo6 c = Some n → slot set c = Some tp →
  (∀ r, elems (Z.to_nat n) tp' r = elems (Z.to_nat n) tp r) →
  runes (<[Z.to_nat c := tp']> set) = runes set.
Proof.
  intros Hc Hn Htp Hel. unfold runes. apply Forall_bind_ext, Forall_forall.
  intros c' Hc'%elem_of_seqZ.
  rewrite slot_insert by (lia || by rewrite Htp). case_decide as Heq; [|done].
  subst. by rewrite Hn, Htp, Hel.
Qed.

Lemma NoDup_singleton (l : list Z) (b : Z) :
  NoDup l → (∀ v, v ∈ l ↔ v = b) → l = [b].
Proof.
  intros Hnd Hl. destruct l as [|x l].
  - pose proof (proj2 (Hl b) eq_refl) as Hb. by apply elem_of_nil in Hb.
  - assert (x = b) as -> by apply Hl, list_elem_of_here. f_equal.
    destruct l as [|y l]; [done|]. apply NoDup_cons in Hnd as [Hx _].
    destruct Hx.
    assert (y = b) as ->
      by apply Hl, list_elem_of_further, list_elem_of_here.
    apply list_elem_of_here.
Qed.

Lemma clo6_leading_ones c :
  0 ≤ c < 64 → slot clo6 c = Some (leading_ones 6 c).
Proof.
  intros Hc.
  pose proof (forall_below
    (λ c, match slot clo6 c with
          | Some n => n =? leading_ones 6 c
          | None => false
          end) 64 ltac:(by vm_compute) c Hc) as H.
  cbv beta in H. destruct (slot clo6 c) as [n|]; [|done]. unbool. by subst.
Qed.

Lemma built_wf_canon set : built set → wf set = true ∧ canon set.
Proof.
  induction 1 as [|a set s pos r a' set' p _ [IHwf IHc] Hr Hh Hadd].
  - split; [done|apply canon_empty].
  - by destruct (addutf_utf8 _ _ _ _ _ _ _ _ IHwf IHc Hr Hh Hadd) as (? & ? & _).
Qed.

Lemma addutf_null a set s pos a' set' :
  wf set = true → ¬ malformed s pos →
  addutf a set s pos = Some (a', set', None) →
  out_of_memory a a' ∧
  ∃ c n tp tp',
    0 ≤ c < 64 ∧ slot clo6 c = Some n ∧ slot set c = Some tp ∧
    set' = <[Z.to_nat c := tp']> set ∧ grown (Z.to_nat n) tp tp'.
Proof.
  intros Hwf Hmal (b & Hb & [(? & _)|H])%addutf_inv;
    [destruct Hmal; by exists b|].
  destruct H as (c & n & start & tp & tp' & (Hn & Hc & _) & Htp & Hw & ->).
  destruct (wf_slot _ c Hwf Hc) as (n' & tp2 & Hn' & Htp2 & _ & Hsh).
  assert (n' = n) as -> by congruence. assert (tp2 = tp) as -> by congruence.
  split.
  - apply walk_null_cause in Hw as (k & _ & ? & ?). by exists k.
  - exists c, n, tp, tp'. split_and!; try done; try lia.
    by eapply walk_null_grown.
Qed.

(** ** Evaluation on sample strings *)

(** The one-byte form of the greatest ASCII rune, the least two-byte form and
    a four-byte form come back from [foreach] as the runes they encode. *)
Example visits_7F : visits_after 1 [] [0x7F] = Some [0x7F].
Proof. reflexivity. Qed.

Example visits_C2_80 : visits_after 1 [] [0xC2; 0x80] = Some [0x80].
Proof. reflexivity. Qed.

Example visits_F0_9F_98_80 :
  visits_after 1 [true; true] [0xF0; 0x9F; 0x98; 0x80] = Some [0x1F600].
Proof. reflexivity. Qed.

(** An overlong sequence is stored under the root slot of its length: the
    three-byte form [E0 81 81] of U+0041 is visited after U+0042. *)
Example visits_overlong :
  visits_after 2 [true] [0x42; 0xE0; 0x81; 0x81] = Some [0x42; 0x41].
Proof. reflexivity. Qed.

(** The seven-byte form that starts with [0xFE] carries 36 bits; the value
    [2 ^ 32] comes back as [0]. *)
Example visits_FE :
  visits_after 1 (replicate 5 true) [0xFE; 0x84; 0x80; 0x80; 0x80; 0x80; 0x80]
  = Some [0].
Proof. reflexivity. Qed.

(** * The properties the specification states *)

(** C1: for every sequence of runes [rs] and every buffer that holds its
    UTF-8 encoding at the cursor, calling [addutf] once per encoded rune from
    the empty set (with an allocator that does not fail) consumes the whole
    encoding, and [foreach] then visits exactly the runes of [rs], each one
    once, however often it occurs in [rs]. *)
Theorem C1_round_trip (rs s : list Z) (pos m : nat) (a0 : allocator) :
  Forall rune_ok rs → holds s pos (encode rs) → (4 * length rs ≤ m)%nat →
  ∃ a' set' l,
    addutf_n (length rs) (replicate m true ++ a0) empty_set s pos
    = Some (a', set', Some (pos + length (encode rs))%nat) ∧
    visits set' = Some l ∧ NoDup l ∧ ∀ v, v ∈ l ↔ v ∈ rs.
Proof.
  intros Hrs Hh Hm.
  destruct (addutf_n_encode rs m a0 empty_set s pos)
    as (k & set' & Hrun & Hwf & Hcanon & Hrunes);
    [done|apply canon_empty|done..|].
  eexists _, set', (runes set'). split_and!; [done|by apply visits_runes| |].
  - by apply sorted_NoDup, runes_sorted.
  - intros v. rewrite Hrunes. split; [|by right].
    intros [Hv|Hv]; [|done]. by apply elem_of_nil in Hv.
Qed.

Lemma C1_witness :
  let rs := [0x61; 0x20AC; 0x61; 0xE9] in
  ∃ a' set' l,
    addutf_n 4 (replicate 16 true ++ []) empty_set (encode rs ++ [0]) 0
    = Some (a', set', Some (0 + length (encode rs))%nat) ∧
    visits set' = Some l ∧ NoDup l ∧ ∀ v, v ∈ l ↔ v ∈ rs.
Proof.
  apply (C1_round_trip [0x61; 0x20AC; 0x61; 0xE9]
           (encode [0x61; 0x20AC; 0x61; 0xE9] ++ [0]) 0 16 []).
  - repeat (constructor; [unfold rune_ok; lia|]). constructor.
  - reflexivity.
  - simpl. lia.
Defined.

(** C2: for every set built from the empty set by successful [addutf] calls
    on UTF-8 (shortest-form) encodings, the successive arguments [foreach]
    passes to the callback are strictly increasing. *)
Theorem C2_ascending (set : UTFSet) :
  built set → ∃ l, visits set = Some l ∧ StronglySorted Z.lt l.
Proof.
  intros [Hwf Hcanon]%built_wf_canon. exists (runes set).
  split; [by apply visits_runes|by apply runes_sorted].
Qed.

Lemma C2_witness :
  ∃ l, visits (<[0%nat := Bits 4]> (<[3%nat := Bits (2 ^ 41)]> empty_set))
       = Some l ∧ StronglySorted Z.lt l.
Proof.
  apply (C2_ascending (<[0%nat := Bits 4]> (<[3%nat := Bits (2 ^ 41)]> empty_set))).
  apply (built_addutf [] (<[3%nat := Bits (2 ^ 41)]> empty_set)
           [0xC3; 0xA9; 0x02] 2 0x02 [] _ 3).
  - apply (built_addutf [] empty_set [0xC3; 0xA9; 0x02] 0 0xE9 [] _ 2).
    + apply built_empty.
    + unfold rune_ok. lia.
    + reflexivity.
    + reflexivity.
  - unfold rune_ok. lia.
  - reflexivity.
  - reflexivity.
Defined.

(** C3, as the claim states it, fails: a continuation byte in leading
    position and a failed allocation both make [addutf] return [NULL], so no
    function of the result separates them. *)
Lemma C3_counterexample : ¬ failures_told_apart.
Proof.
  intros [kind Hkind].
  pose proof (Hkind [] empty_set [0x80] 0%nat [] empty_set None eq_refl eq_refl)
    as [_ H1].
  pose proof (Hkind [] empty_set [0xE2; 0x82; 0xAC] 0%nat [] empty_set None
                eq_refl eq_refl) as [H2 _].
  assert (malformed [0x80] 0) as Hm.
  { exists 0x80. split; [done|]. by assert (uchar 0x80 = 128) as -> by done. }
  destruct (H2 (H1 Hm)) as (b & [= <-] & Hb).
  assert (uchar 0xE2 = 226) as Hu by done. rewrite Hu in Hb. lia.
Qed.

(** C3, amended: [addutf] fails in exactly two ways, on a continuation byte
    in leading position and on a failed allocation, and reports both by the
    same result, [NULL]: whenever it returns [NULL], either the byte at the
    cursor is a continuation byte and neither the allocator nor the set has
    changed, or it is not and a call to [calloc] returned [NULL]. *)
Theorem C3_two_failures (a : allocator) (set : UTFSet) (s : list Z) (pos : nat)
    (a' : allocator) (set' : UTFSet) :
  addutf a set s pos = Some (a', set', None) →
  malformed s pos ∧ a' = a ∧ set' = set ∨
  ¬ malformed s pos ∧ out_of_memory a a'.
Proof.
  intros (b & Hb & [(? & -> & -> & _)|H])%addutf_inv.
  - left. split; [by exists b|done].
  - destruct H as (c & n & start & tp & tp' & Hl & _ & Hw & _). right. split.
    + intros (b' & Hb' & ?). assert (b' = b) as -> by congruence.
      destruct Hl as (_ & _ & [(? & _)|(? & _)]); lia.
    + apply walk_null_cause in Hw as (k & _ & ? & ?). by exists k.
Qed.

Lemma C3_witness :
  malformed [0xF0; 0x9D; 0x94; 0x88] 0 ∧ [] = [true] ∧
    <[48%nat := Ptr zero_block]> empty_set = empty_set ∨
  ¬ malformed [0xF0; 0x9D; 0x94; 0x88] 0 ∧ out_of_memory [true] [].
Proof.
  apply (C3_two_failures [true] empty_set [0xF0; 0x9D; 0x94; 0x88] 0 []
           (<[48%nat := Ptr zero_block]> empty_set)).
  reflexivity.
Defined.

(** C4: when the byte at the cursor is in [0x80..0xBF], [addutf] returns
    [NULL] and changes neither the allocator nor the set, so [foreach] visits
    what it visited before: nothing, if the set was empty. *)
Theorem C4_continuation_byte (a : allocator) (set : UTFSet) (s : list Z)
    (pos : nat) (b : Z) :
  s !! pos = Some b → 0x80 ≤ b ≤ 0xBF →
  ∃ a' set',
    addutf a set s pos = Some (a', set', None) ∧ a' = a ∧ set' = set ∧
    visits set' = visits set ∧
    (set = empty_set → visits set' = Some []).
Proof.
  intros Hb Hr. exists a, set. split_and!; [|done..|by intros ->].
  eapply addutf_continuation; [done|]. unfold uchar.
  rewrite Z.mod_small by lia. lia.
Qed.

Lemma C4_witness :
  ∃ a' set',
    addutf [true] empty_set [0xA9; 0x61] 0 = Some (a', set', None) ∧
    a' = [true] ∧ set' = empty_set ∧ visits set' = visits empty_set ∧
    (empty_set = empty_set → visits set' = Some []).
Proof.
  apply (C4_continuation_byte [true] empty_set [0xA9; 0x61] 0 0xA9).
  - reflexivity.
  - lia.
Defined.

(** C5: for every ASCII byte [b] at the cursor, [addutf] returns the cursor
    advanced by exactly one, asks for no allocation, and makes the rune [b] a
    member of the set: [foreach] visits it.  Added to the empty set, [b] is
    all that [foreach] visits; so it is for [0x41]. *)
Theorem C5_ascii (a : allocator) (set : UTFSet) (s : list Z) (pos : nat) (b : Z) :
  wf set = true → s !! pos = Some b → 0 ≤ b < 128 →
  ∃ set' l,
    addutf a set s pos = Some (a, set', Some (pos + 1)%nat) ∧
    visits set' = Some l ∧ b ∈ l ∧
    (set = empty_set → l = [b]).
Proof.
  intros Hwf Hb Hr.
  assert (uchar b = b) as Hu by (apply Z.mod_small; lia).
  assert (rune_ok b) as Hok by (unfold rune_ok; lia).
  assert (holds s pos (utf8 b)) as Hh.
  { unfold utf8. destruct (Z.ltb_spec b 128); [|lia].
    unfold holds. cbn [length]. by rewrite (take_drop_cons _ _ _ _ Hb). }
  assert (lead b pos (b / 64) 0 pos) as Hl.
  { assert (b / 64 = 0 ∨ b / 64 = 1) as Hc by (Z.div_mod_to_equations; lia).
    split_and!; [by destruct Hc as [-> | ->]|lia..|right; rewrite Hu; lia]. }
  destruct (wf_slot _ (b / 64) Hwf) as (n & tp & Hn & Htp & _ & Hsh);
    [Z.div_mod_to_equations; lia|].
  assert (n = 0) as -> by (destruct Hl as (? & _); congruence).
  apply shaped_leaf in Hsh as (m & -> & _).
  assert (addutf a set s pos
          = Some (a, <[Z.to_nat (b / 64) :=
                         Bits (Z.lor m (Z.shiftl 1 (uchar b mod 64)))]> set,
                  Some (pos + 1)%nat)) as Hadd.
  { rewrite (addutf_lead _ _ _ _ _ _ _ _ Hb Hl), Htp.
    change (Z.to_nat 0) with 0%nat. cbn. rewrite Hb. cbn.
    by rewrite Nat.add_1_r. }
  destruct (addutf_runes _ _ _ _ _ _ _ Hwf Hadd)
    as (v0 & (b2 & c2 & n2 & st2 & Hb2 & Hl2 & ->) & Hrunes).
  assert (b2 = b) as -> by congruence.
  destruct (utf8_decodes _ _ _ _ _ _ _ Hok Hh Hb Hl2) as (Hval & _).
  rewrite Hval in Hrunes.
  eexists _, _. split_and!; [done| | |].
  - apply visits_runes. by eapply addutf_wf.
  - apply Hrunes. by right.
  - intros ->.
    destruct (addutf_utf8 _ _ _ _ _ _ _ _ Hwf canon_empty Hok Hh Hadd)
      as (_ & Hcanon & _ & _).
    apply NoDup_singleton; [by apply sorted_NoDup, runes_sorted|].
    intros v. rewrite Hrunes. split; [|by right].
    intros [Hv|Hv]; [|done]. by apply elem_of_nil in Hv.
Qed.

Lemma C5_witness :
  ∃ set' l,
    addutf [] empty_set [0x41] 0 = Some ([], set', Some (0 + 1)%nat) ∧
    visits set' = Some l ∧ 0x41 ∈ l ∧
    (empty_set = empty_set → l = [0x41]).
Proof.
  apply (C5_ascii [] empty_set [0x41] 0 0x41).
  - reflexivity.
  - reflexivity.
  - lia.
Defined.

(** C6: for every first byte [b >= 0xC0], with [n = clo6[b % 64]], the table
    gives the number of leading one-bits of the low six bits of [b]; a
    successful [addutf] returns the cursor [n + 1] bytes after the byte that
    follows [b], all inside the buffer; its outcome depends on no byte other
    than [b] and these [n + 1]; and it is successful whenever these bytes
    are in the buffer and the next [n] allocations succeed. *)
Theorem C6_lead_byte (set : UTFSet) (s : list Z) (pos : nat) (b : Z) :
  wf set = true → s !! pos = Some b → 0xC0 ≤ b ≤ 0xFF →
  ∃ n : nat,
    slot clo6 (b mod 64) = Some (Z.of_nat n) ∧
    Z.of_nat n = leading_ones 6 (b mod 64) ∧
    (∀ a a' set' p,
       addutf a set s pos = Some (a', set', Some p) →
       p = (pos + 1 + (n + 1))%nat ∧ (p ≤ length s)%nat) ∧
    (∀ a s2,
       (∀ i, (pos ≤ i < pos + 1 + (n + 1))%nat → s2 !! i = s !! i) →
       addutf a set s2 pos = addutf a set s pos) ∧
    (∀ m a0,
       (pos + 1 + (n + 1) ≤ length s)%nat → (n ≤ m)%nat →
       ∃ a' set',
         addutf (replicate m true ++ a0) set s pos
         = Some (a', set', Some (pos + 1 + (n + 1))%nat)).
Proof.
  intros Hwf Hb Hr.
  assert (uchar b = b) as Hu by (apply Z.mod_small; lia).
  assert (0 ≤ b mod 64 < 64) as Hc by (apply Z.mod_pos_bound; lia).
  pose proof (clo6_leading_ones _ Hc) as Hn.
  pose proof (clo6_range _ _ Hn) as Hn06.
  exists (Z.to_nat (leading_ones 6 (b mod 64))).
  rewrite Z2Nat.id by lia. split_and!; [done..| | |].
  - intros a a' set' p Hadd.
    destruct (addutf_success _ _ _ _ _ _ _ Hwf Hadd)
      as (_ & b2 & c & n & start & _ & _ & Hb2 & Hl & _ & _ & -> & Hlen & _).
    assert (b2 = b) as -> by congruence.
    destruct Hl as (Hn2 & _ & Hd). rewrite Hu in Hd.
    destruct Hd as [(_ & -> & ->)|(? & _)]; [|lia].
    assert (n = leading_ones 6 (b mod 64)) as -> by congruence. lia.
  - intros a s2 Hagree.
    assert (lead b pos (b mod 64) (leading_ones 6 (b mod 64)) (S pos)) as Hl.
    { split_and!; [done|lia..|left; rewrite Hu; split_and!; (done || lia)]. }
    rewrite (addutf_lead _ _ s2 _ _ _ _ _ (eq_trans (Hagree pos ltac:(lia)) Hb) Hl).
    rewrite (addutf_lead _ _ s _ _ _ _ _ Hb Hl).
    destruct (slot set (b mod 64)) as [tp|]; [|done]. cbn.
    rewrite (walk_ext _ a tp s s2 (S pos)); [done|].
    intros i Hi. apply Hagree. lia.
  - intros m a0 Hlen Hm.
    assert (lead b pos (b mod 64) (leading_ones 6 (b mod 64)) (S pos)) as Hl.
    { split_and!; [done|lia..|left; rewrite Hu; split_and!; (done || lia)]. }
    destruct (addutf_succeeds m a0 set s pos _ _ _ _ Hwf Hb Hl)
      as (k & set' & _ & Hadd); [lia..|].
    eexists _, set'. rewrite Hadd. do 3 f_equal. lia.
Qed.

Lemma C6_witness :
  ∃ n : nat,
    slot clo6 (0xE2 mod 64) = Some (Z.of_nat n) ∧
    Z.of_nat n = leading_ones 6 (0xE2 mod 64) ∧
    (∀ a a' set' p,
       addutf a empty_set [0xE2; 0x82; 0xAC; 0x61] 0 = Some (a', set', Some p) →
       p = (0 + 1 + (n + 1))%nat ∧ (p ≤ length [0xE2; 0x82; 0xAC; 0x61])%nat) ∧
    (∀ a s2,
       (∀ i, (0 ≤ i < 0 + 1 + (n + 1))%nat →
             s2 !! i = [0xE2; 0x82; 0xAC; 0x61] !! i) →
       addutf a empty_set s2 0 = addutf a empty_set [0xE2; 0x82; 0xAC; 0x61] 0) ∧
    (∀ m a0,
       (0 + 1 + (n + 1) ≤ length [0xE2; 0x82; 0xAC; 0x61])%nat → (n ≤ m)%nat →
       ∃ a' set',
         addutf (replicate m true ++ a0) empty_set [0xE2; 0x82; 0xAC; 0x61] 0
         = Some (a', set', Some (0 + 1 + (n + 1))%nat)).
Proof.
  apply (C6_lead_byte empty_set [0xE2; 0x82; 0xAC; 0x61] 0 0xE2).
  - reflexivity.
  - reflexivity.
  - lia.
Defined.

(** C7: when [addutf] has added a rune encoding to a set, adding the same
    encoding again succeeds, asks for no allocation, and leaves the set as it
    is, so [foreach] visits what it visited after the first call. *)
Theorem C7_idempotent (a : allocator) (set : UTFSet) (s : list Z) (pos : nat)
    (a1 : allocator) (set1 : UTFSet) (p : nat) (a2 : allocator) :
  addutf a set s pos = Some (a1, set1, Some p) →
  ∃ set2,
    addutf a2 set1 s pos = Some (a2, set2, Some p) ∧ set2 = set1 ∧
    visits set2 = visits set1.
Proof. intros Hadd. exists set1. by rewrite (addutf_again _ _ _ _ _ _ _ a2 Hadd). Qed.

Lemma C7_witness :
  ∃ set2,
    addutf [] (<[3%nat := Bits (2 ^ 41)]> empty_set) [0xC3; 0xA9] 0
    = Some ([], set2, Some 2%nat) ∧
    set2 = <[3%nat := Bits (2 ^ 41)]> empty_set ∧
    visits set2 = visits (<[3%nat := Bits (2 ^ 41)]> empty_set).
Proof.
  apply (C7_idempotent [true] empty_set [0xC3; 0xA9] 0 [true] _ 2 []).
  reflexivity.
Defined.

(** C8: on every well-shaped set and for every callback, [foreach] returns,
    with the set and the allocator exactly as they were; all it does is to
    call the callback on the runes of the set, in order. *)
Theorem C8_foreach_reads_only {S : Type} (a : allocator) (set : UTFSet)
    (fcn : Z → S → S) (acc : S) :
  wf set = true →
  ∃ l, visits set = Some l ∧
       foreach a set fcn acc = Some (a, set, foldl (λ x v, fcn v x) acc l).
Proof.
  intros Hwf. exists (runes set).
  split; [by apply visits_runes|by apply foreach_runes].
Qed.

Lemma C8_witness :
  ∃ l, visits (<[3%nat := Bits (2 ^ 41)]> empty_set) = Some l ∧
       foreach [true; false] (<[3%nat := Bits (2 ^ 41)]> empty_set)
         (λ r n, (n + r)%Z) 0
       = Some ([true; false], <[3%nat := Bits (2 ^ 41)]> empty_set,
               foldl (λ x v, (x + v)%Z) 0 l).
Proof.
  apply (C8_foreach_reads_only [true; false]
           (<[3%nat := Bits (2 ^ 41)]> empty_set) (λ r n, (n + r)%Z) 0).
  reflexivity.
Defined.

(** C9: adding the ten bytes of "aé€𝔈" to the empty set takes four calls and
    three allocations, and [foreach] then calls the callback four times, on
    [0x61], [0xE9], [0x20AC] and [0x1D508], in this order. *)
Theorem C9_multi_rune :
  ∃ set',
    (∀ a0, addutf_n 4 (replicate 3 true ++ a0) empty_set c9_string 0
           = Some (a0, set', Some 10%nat)) ∧
    visits set' = Some [0x61; 0xE9; 0x20AC; 0x1D508] ∧
    ∀ (S : Type) (fcn : Z → S → S) (acc : S) (a : allocator),
      foreach a set' fcn acc
      = Some (a, set', fcn 0x1D508 (fcn 0x20AC (fcn 0xE9 (fcn 0x61 acc)))).
Proof.
  eexists. split; [intros a0; vm_compute; reflexivity|].
  split; [by vm_compute|].
  intros S fcn acc a. rewrite foreach_runes by (by vm_compute).
  match goal with
  | |- context [runes ?X] =>
      assert (runes X = [0x61; 0xE9; 0x20AC; 0x1D508]) as -> by (by vm_compute)
  end.
  done.
Qed.

(** C10: when [addutf] fails on an allocation, the set it leaves differs
    from the one it found only in that, in one root slot, null pointers were
    replaced by blocks in which every slot is zero; no bitmask has changed,
    and [foreach] visits exactly what it visited before the call. *)
Theorem C10_out_of_memory (a : allocator) (set : UTFSet) (s : list Z)
    (pos : nat) (b : Z) (a' : allocator) (set' : UTFSet) :
  wf set = true → s !! pos = Some b → uchar b < 128 ∨ 192 ≤ uchar b →
  addutf a set s pos = Some (a', set', None) →
  out_of_memory a a' ∧ wf set' = true ∧
  (∃ c n tp tp',
     0 ≤ c < 64 ∧ slot clo6 c = Some n ∧ slot set c = Some tp ∧
     set' = <[Z.to_nat c := tp']> set ∧ grown (Z.to_nat n) tp tp') ∧
  visits set' = visits set.
Proof.
  intros Hwf Hb Hlead Hadd.
  assert (¬ malformed s pos) as Hmal.
  { intros (b' & Hb' & ?). assert (b' = b) as -> by congruence. lia. }
  destruct (addutf_null _ _ _ _ _ _ Hwf Hmal Hadd)
    as (Hoom & c & n & tp & tp' & Hc & Hn & Htp & -> & Hg).
  pose proof (addutf_wf _ _ _ _ _ _ _ Hwf Hadd) as Hwf'.
  split_and!; [done..|by exists c, n, tp, tp'|].
  rewrite !visits_runes by done. f_equal.
  eapply runes_insert_same; [done..|]. intros r. by apply grown_elems.
Qed.

Lemma C10_witness :
  out_of_memory [true] [] ∧
  wf (<[48%nat := Ptr zero_block]> empty_set) = true ∧
  (∃ c n tp tp',
     0 ≤ c < 64 ∧ slot clo6 c = Some n ∧ slot empty_set c = Some tp ∧
     <[48%nat := Ptr zero_block]> empty_set = <[Z.to_nat c := tp']> empty_set ∧
     grown (Z.to_nat n) tp tp') ∧
  visits (<[48%nat := Ptr zero_block]> empty_set) = visits empty_set.
Proof.
  apply (C10_out_of_memory [true] empty_set [0xF0; 0x9D; 0x94; 0x88] 0 0xF0 []
           (<[48%nat := Ptr zero_block]> empty_set)).
  - reflexivity.
  - reflexivity.
  - right. vm_compute. discriminate.
  - reflexivity.
Defined.

(** * Further properties of the code *)

(** ** addutf *)

Lemma walk_alloc n :
  ∀ a tp s pos a' tp' ret,
    walk n a tp s pos = Some (a', tp', ret) →
    ∃ k, (k ≤ n)%nat ∧ a' = drop k a.
Proof.
  induction n as [|n IH]; intros a tp s pos a' tp' ret Hw.
  - apply walk_leaf_inv in Hw as (b & m & _ & _ & -> & _). by exists 0%nat.
  - apply walk_node_inv in Hw
      as [(_ & _ & _ & Hc)|(a1 & blk & b & t & t' & Hblk & _ & _ & Hw & _)].
    + apply calloc_None in Hc as [->|[-> ->]]; [exists 1%nat|exists 0%nat];
        (split; [lia|done]).
    + apply IH in Hw as (k & Hk & ->).
      destruct Hblk as [[_ ->]|(_ & -> & _)]; [exists k|exists (S k)];
        (split; [lia|done]).
Qed.

Lemma addutf_null_runes a set s pos a' set' :
  wf set = true → addutf a set s pos = Some (a', set', None) →
  runes set' = runes set.
Proof.
  intros Hwf Hadd.
  pose proof Hadd as (b & Hb & [(_ & _ & -> & _)|H])%addutf_inv; [done|].
  destruct H as (c & n & start & tp & tp' & Hl & _).
  assert (¬ malformed s pos) as Hmal.
  { intros (b' & Hb' & ?). assert (b' = b) as -> by congruence.
    destruct Hl as (_ & _ & [(? & _)|(? & _)]); lia. }
  destruct (addutf_null _ _ _ _ _ _ Hwf Hmal Hadd)
    as (_ & c2 & n2 & tp2 & tp2' & Hc & Hn & Htp & -> & Hg).
  eapply runes_insert_same; [done..|]. intros r. by apply grown_elems.
Qed.

(** X1: whatever a run of [addutf] calls returns, it leaves a well-shaped
    set well-shaped: 64 slots everywhere, and below root slot [c] exactly
    [clo6[c]] levels of blocks above the bitmasks. *)
Theorem X1_addutf_n_keeps_shape (k : nat) :
  ∀ (a : allocator) (set : UTFSet) (s : list Z) (pos : nat)
    (a' : allocator) (set' : UTFSet) (ret : option nat),
    wf set = true → addutf_n k a set s pos = Some (a', set', ret) →
    wf set' = true.
Proof.
  induction k as [|k IH]; intros a set s pos a' set' ret Hwf Hrun; cbn in Hrun.
  - by simplify_eq.
  - destruct (addutf a set s pos) as [[[a1 set1] [p|]]|] eqn:Hadd;
      cbn in Hrun; [| |done].
    + eapply IH; [|done]. by eapply addutf_wf.
    + simplify_eq. by eapply addutf_wf.
Qed.

Lemma X1_witness :
  wf (<[0%nat := Bits 2]> (<[48%nat := Ptr zero_block]> empty_set)) = true.
Proof.
  apply (X1_addutf_n_keeps_shape 2 [true] empty_set
           [0x01; 0xF0; 0x9D; 0x94; 0x88] 0 []
           (<[0%nat := Bits 2]> (<[48%nat := Ptr zero_block]> empty_set)) None).
  - reflexivity.
  - reflexivity.
Defined.

(** X2: on a well-shaped set [addutf] stays inside the model, whatever the
    allocator answers, as soon as the buffer holds the bytes the first byte
    announces: the byte itself and, after a lead byte, [clo6[b % 64] + 1]
    more.  It reads no byte outside the buffer and no slot as what it is
    not. *)
Theorem X2_addutf_defined (a : allocator) (set : UTFSet) (s : list Z)
    (pos : nat) (b : Z) :
  wf set = true → s !! pos = Some b →
  (192 ≤ uchar b →
   ∀ n, slot clo6 (uchar b mod 64) = Some n →
        (pos + Z.to_nat n + 2 ≤ length s)%nat) →
  is_Some (addutf a set s pos).
Proof.
  intros Hwf Hb Hlen.
  destruct (decide (128 ≤ uchar b < 192)) as [Hcont|Hlead].
  - by rewrite (addutf_continuation _ _ _ _ _ Hb Hcont).
  - destruct (lead_exists b pos Hlead) as (c & n & start & Hl).
    rewrite (addutf_lead _ _ _ _ _ _ _ _ Hb Hl).
    pose proof Hl as (Hn & Hc & Hd).
    destruct (wf_slot _ c Hwf Hc) as (n' & tp & Hn' & Htp & _ & Hsh).
    assert (n' = n) as -> by congruence. rewrite Htp. cbn.
    destruct (walk_defined (Z.to_nat n) a tp s start Hsh) as [[[a' tp'] ret] ->];
      [|done].
    apply lookup_lt_Some in Hb.
    destruct Hd as [(Hhi & -> & ->)|(_ & _ & -> & ->)]; [|cbn; lia].
    specialize (Hlen Hhi n Hn). lia.
Qed.

Lemma X2_witness : is_Some (addutf [false] empty_set [0xE2; 0x82; 0xAC] 0).
Proof.
  apply (X2_addutf_defined [false] empty_set [0xE2; 0x82; 0xAC] 0 0xE2).
  - reflexivity.
  - reflexivity.
  - intros _ n Hn. vm_compute in Hn. injection Hn as <-. vm_compute. lia.
Defined.

(** X3: [addutf] never removes a member.  On a well-shaped set, whatever
    the bytes are, every rune [foreach] visited before the call it visits
    after it; a call that returns [NULL] changes the visits in nothing, and
    a call that succeeds adds one value, the one the bytes read select. *)
Theorem X3_addutf_only_adds (a : allocator) (set : UTFSet) (s : list Z)
    (pos : nat) (a' : allocator) (set' : UTFSet) (ret : option nat) :
  wf set = true → addutf a set s pos = Some (a', set', ret) →
  ∃ l l',
    visits set = Some l ∧ visits set' = Some l' ∧
    (∀ v, v ∈ l → v ∈ l') ∧
    (ret = None → l' = l) ∧
    (ret ≠ None → ∃ v0, rune_at s pos v0 ∧ ∀ v, v ∈ l' ↔ v ∈ l ∨ v = v0).
Proof.
  intros Hwf Hadd. pose proof (addutf_wf _ _ _ _ _ _ _ Hwf Hadd) as Hwf'.
  exists (runes set), (runes set').
  rewrite !visits_runes by done. split_and!; [done..| | |].
  - destruct ret as [p|].
    + destruct (addutf_runes _ _ _ _ _ _ _ Hwf Hadd) as (v0 & _ & Hr).
      intros v Hv. apply Hr. by left.
    + by rewrite (addutf_null_runes _ _ _ _ _ _ Hwf Hadd).
  - intros ->. by eapply addutf_null_runes.
  - destruct ret as [p|]; [intros _|done]. by eapply addutf_runes.
Qed.

Lemma X3_witness :
  ∃ l l',
    visits (<[1%nat := Bits 2]> empty_set) = Some l ∧
    visits (<[32%nat := Ptr (<[1%nat := Bits 2]> zero_block)]>
             (<[1%nat := Bits 2]> empty_set)) = Some l' ∧
    (∀ v, v ∈ l → v ∈ l') ∧
    (Some 3%nat = None → l' = l) ∧
    (Some 3%nat ≠ None →
     ∃ v0, rune_at [0xE0; 0x81; 0x81] 0 v0 ∧ ∀ v, v ∈ l' ↔ v ∈ l ∨ v = v0).
Proof.
  apply (X3_addutf_only_adds [true] (<[1%nat := Bits 2]> empty_set)
           [0xE0; 0x81; 0x81] 0 []).
  - reflexivity.
  - reflexivity.
Defined.

Lemma addutf_cursor a set s pos a' set' p :
  addutf a set s pos = Some (a', set', Some p) →
  (pos < p ≤ pos + 8)%nat ∧ (p ≤ length s)%nat.
Proof.
  intros (b & Hb & [(_ & _ & _ & ?)|H])%addutf_inv; [done|].
  destruct H as (c & n & start & tp & tp' & (Hn & _ & Hd) & _ & Hw & _).
  apply walk_ret in Hw as [-> Hlen]. apply clo6_range in Hn.
  destruct Hd as [(_ & _ & ->)|(_ & _ & -> & ->)]; cbn; lia.
Qed.

(** X4: a call of [addutf] that succeeds moves the cursor forward, by one
    byte at least and eight at most, and never past the end of the buffer. *)
Theorem X4_addutf_advances (a : allocator) (set : UTFSet) (s : list Z)
    (pos : nat) (a' : allocator) (set' : UTFSet) (p : nat) :
  addutf a set s pos = Some (a', set', Some p) →
  (pos < p ≤ pos + 8)%nat ∧ (p ≤ length s)%nat.
Proof. apply addutf_cursor. Qed.

Lemma X4_witness :
  (0 < 4 ≤ 0 + 8)%nat ∧ (4 ≤ length [0xF0; 0x9D; 0x94; 0x88; 0x00])%nat.
Proof.
  apply (X4_addutf_advances [true; true] empty_set
           [0xF0; 0x9D; 0x94; 0x88; 0x00] 0 []
           (<[48%nat := Ptr (<[29%nat := Ptr (<[20%nat := Bits 256]> zero_block)]>
                              zero_block)]> empty_set)).
  reflexivity.
Defined.

(** X5: a one-byte or a two-byte sequence costs no allocation and cannot
    fail: for a first byte below [0x80], or from [0xC0] to [0xDF] with one
    more byte in the buffer, [addutf] on a well-shaped set succeeds with the
    allocator untouched, whatever the allocator would have answered. *)
Theorem X5_short_forms_never_fail (a : allocator) (set : UTFSet) (s : list Z)
    (pos : nat) (b : Z) :
  wf set = true → s !! pos = Some b →
  uchar b < 128 ∨ 192 ≤ uchar b < 224 ∧ (pos + 1 < length s)%nat →
  ∃ set',
    addutf a set s pos
    = Some (a, set', Some (if uchar b <? 128 then (pos + 1)%nat else (pos + 2)%nat)).
Proof.
  intros Hwf Hb Hcase.
  assert (∃ c start, lead b pos c 0 start ∧ (start < length s)%nat ∧
            (start + 1)%nat = (if uchar b <? 128 then (pos + 1)%nat else (pos + 2)%nat))
    as (c & start & Hl & Hlen & Hp).
  { pose proof (uchar_range b) as Hr. apply lookup_lt_Some in Hb as Hpos.
    destruct Hcase as [Hlo|[Hhi Hnext]].
    - exists (uchar b / 64), pos.
      assert (uchar b / 64 = 0 ∨ uchar b / 64 = 1) as Hc
        by (Z.div_mod_to_equations; lia).
      split_and!; [|done|].
      + split_and!; [by destruct Hc as [-> | ->]|lia..|right; by split_and!].
      + by apply Z.ltb_lt in Hlo as ->.
    - exists (uchar b mod 64), (S pos).
      assert (0 ≤ uchar b mod 64 < 32) as Hc by (Z.div_mod_to_equations; lia).
      split_and!; [|lia|].
      + split_and!; [|lia..|left; split_and!; (done || lia)].
        rewrite clo6_by_class by lia. unfold clo6_class.
        by destruct (Z.ltb_spec (uchar b mod 64) 32); [|lia].
      + assert ((uchar b <? 128) = false) as -> by (apply Z.ltb_ge; lia). lia. }
  destruct (addutf_succeeds 0 a set s pos b c 0 start Hwf Hb Hl)
    as (k & set' & Hk & Hadd); [cbn; lia..|].
  exists set'. cbn in Hadd. rewrite Hadd. do 3 f_equal. cbn. lia.
Qed.

Lemma X5_witness :
  ∃ set',
    addutf [false] empty_set [0xC3; 0xA9] 0
    = Some ([false], set',
            Some (if uchar 0xC3 <? 128 then (0 + 1)%nat else (0 + 2)%nat)).
Proof.
  apply (X5_short_forms_never_fail [false] empty_set [0xC3; 0xA9] 0 0xC3).
  - reflexivity.
  - reflexivity.
  - right. vm_compute. repeat split; (discriminate || reflexivity || lia).
Defined.

(** X6: one call of [addutf] calls [calloc] at most [clo6[b % 64]] times,
    six at most: the allocator it leaves is the one it found less that many
    answers, and it is untouched when the first byte is below [0xC0]. *)
Theorem X6_addutf_allocations (a : allocator) (set : UTFSet) (s : list Z)
    (pos : nat) (b : Z) (a' : allocator) (set' : UTFSet) (ret : option nat) :
  s !! pos = Some b → addutf a set s pos = Some (a', set', ret) →
  ∃ k : nat,
    a' = drop k a ∧ (k ≤ 6)%nat ∧
    (uchar b < 192 → k = 0%nat) ∧
    (∀ n, 192 ≤ uchar b → slot clo6 (uchar b mod 64) = Some n →
          Z.of_nat k ≤ n).
Proof.
  intros Hb (b' & Hb' & H)%addutf_inv. assert (b' = b) as -> by congruence.
  destruct H as [(? & -> & _)|H].
  - exists 0%nat. split_and!; [done|lia|done|]. intros n ?. lia.
  - destruct H as (c & n & start & tp & tp' & (Hn & _ & Hd) & _ & Hw & _).
    apply walk_alloc in Hw as (k & Hk & ->). pose proof (clo6_range _ _ Hn).
    exists k. split_and!; [done|lia| |].
    + intros Hlo. destruct Hd as [(? & _)|(_ & _ & -> & _)]; [lia|].
      change (Z.to_nat 0) with 0%nat in Hk. lia.
    + intros n' Hhi Hn'. destruct Hd as [(_ & -> & _)|(? & _)]; [|lia].
      assert (n' = n) as -> by congruence. lia.
Qed.

Lemma X6_witness :
  ∃ k : nat,
    [false] = drop k [true; true; false] ∧ (k ≤ 6)%nat ∧
    (uchar 0xF0 < 192 → k = 0%nat) ∧
    (∀ n, 192 ≤ uchar 0xF0 → slot clo6 (uchar 0xF0 mod 64) = Some n →
          Z.of_nat k ≤ n).
Proof.
  apply (X6_addutf_allocations [true; true; false] empty_set
           [0xF0; 0x9D; 0x94; 0x88] 0 0xF0 [false]
           (<[48%nat := Ptr (<[29%nat := Ptr (<[20%nat := Bits 256]> zero_block)]>
                              zero_block)]> empty_set) (Some 4%nat)).
  - reflexivity.
  - reflexivity.
Defined.

Lemma indices_lookup (s : list Z) i :
  indices s !! i = (λ b, uchar b mod 64) <$> s !! i.
Proof. unfold indices. apply list_lookup_fmap. Qed.

Lemma walk_low6 n :
  ∀ a tp s s2 pos,
    indices s2 = indices s → walk n a tp s2 pos = walk n a tp s pos.
Proof.
  induction n as [|n IH]; intros a tp s s2 pos Hidx.
  - cbn [walk]. pose proof (indices_lookup s pos) as H1.
    pose proof (indices_lookup s2 pos) as H2. rewrite Hidx, H1 in H2.
    destruct (s !! pos) as [b|], (s2 !! pos) as [b2|]; cbn in *; simplify_eq;
      [|done]. by rewrite H2.
  - cbn [walk]. pose proof (indices_lookup s pos) as H1.
    pose proof (indices_lookup s2 pos) as H2. rewrite Hidx, H1 in H2.
    assert (∀ a1 t, walk n a1 t s2 (S pos) = walk n a1 t s (S pos)) as Hrec
      by (intros; by apply IH).
    destruct (ptr_of tp) as [[blk|]|]; cbn; [| |done].
    + destruct (s !! pos) as [b|], (s2 !! pos) as [b2|]; cbn in *; simplify_eq;
        [|done]. rewrite H2.
      destruct (slot blk _) as [t|]; cbn; [|done]. by rewrite Hrec.
    + destruct (calloc a) as [a1 [blk|]]; [|done].
      destruct (s !! pos) as [b|], (s2 !! pos) as [b2|]; cbn in *; simplify_eq;
        [|done]. rewrite H2.
      destruct (slot blk _) as [t|]; cbn; [|done]. by rewrite Hrec.
Qed.

(** X7: [addutf] does not look at the two high bits of the bytes that follow
    the first one.  Two buffers with the same first byte at the cursor and
    the same low six bits in every byte give the same outcome, so that any
    byte at all is taken for a continuation byte. *)
Theorem X7_continuation_bytes_unchecked (a : allocator) (set : UTFSet)
    (s s2 : list Z) (pos : nat) :
  s2 !! pos = s !! pos → indices s2 = indices s →
  addutf a set s2 pos = addutf a set s pos.
Proof.
  intros Hfirst Hidx. unfold addutf. rewrite Hfirst.
  assert (∀ n tp p, walk n a tp s2 p = walk n a tp s p) as Hw
    by (intros; by apply walk_low6).
  apply option_bind_ext_fun. intros b.
  destruct (192 <=? uchar b).
  - apply option_bind_ext_fun. intros n.
    apply option_bind_ext_fun. intros tp. by rewrite Hw.
  - destruct (uchar b <? 128); [|done].
    apply option_bind_ext_fun. intros tp. by rewrite Hw.
Qed.

Lemma X7_witness :
  addutf [true] empty_set [0xE2; 0x02; 0x6C] 0
  = addutf [true] empty_set [0xE2; 0x82; 0xAC] 0.
Proof.
  apply (X7_continuation_bytes_unchecked [true] empty_set
           [0xE2; 0x82; 0xAC] [0xE2; 0x02; 0x6C] 0).
  - reflexivity.
  - reflexivity.
Defined.

(** ** The order of the insertions *)

Lemma indices_range (bs : list Z) : Forall (λ c, 0 ≤ c < 64) (indices bs).
Proof.
  unfold indices. apply Forall_fmap, Forall_forall. intros b _. cbn.
  apply low6_range.
Qed.

Lemma walk_graft n :
  ∀ a tp s pos a' tp' p,
    walk n a tp s pos = Some (a', tp', Some p) →
    tp' = graft n tp (indices (take (S n) (drop pos s))).
Proof.
  induction n as [|n IH]; intros a tp s pos a' tp' p Hw.
  - apply walk_leaf_inv in Hw as (b & m & Hb & -> & _ & -> & _).
    by rewrite (take_drop_cons _ _ _ _ Hb).
  - apply walk_node_inv in Hw
      as [(_ & _ & ? & _)|(a1 & blk & b & t & t' & Hblk & Hb & Hslot & Hw & ->)];
      [done|].
    rewrite (take_drop_cons _ _ _ _ Hb). unfold indices. cbn [fmap list_fmap graft].
    apply IH in Hw as ->.
    by destruct Hblk as [[-> _]|(-> & _ & ->)]; rewrite Hslot.
Qed.

Lemma graft_comm n :
  ∀ t cs1 cs2,
    shaped n t = true →
    Forall (λ c, 0 ≤ c < 64) cs1 → Forall (λ c, 0 ≤ c < 64) cs2 →
    graft n (graft n t cs1) cs2 = graft n (graft n t cs2) cs1.
Proof.
  induction n as [|n IH]; intros t cs1 cs2 Ht H1 H2.
  - apply shaped_leaf in Ht as (m & -> & _).
    destruct cs1 as [|c1 cs1], cs2 as [|c2 cs2]; try done. cbn.
    by rewrite <- !Z.lor_assoc, (Z.lor_comm (Z.shiftl 1 c1)).
  - destruct cs1 as [|c1 cs1]; [by destruct cs2|].
    destruct cs2 as [|c2 cs2]; [done|].
    apply Forall_cons in H1 as [Hc1 H1]. apply Forall_cons in H2 as [Hc2 H2].
    assert (∃ blk, (t = Ptr blk ∨ t = Bits 0 ∧ blk = zero_block) ∧
              length blk = 64%nat ∧
              ∀ c t', blk !! c = Some t' → shaped n t' = true)
      as (blk & Hblk & Hlen & Hsub).
    { apply shaped_node in Ht as [->|(blk & -> & ? & ?)].
      - exists zero_block. split_and!; [by right|done|].
        intros c t' [-> _]%lookup_replicate. apply shaped_null.
      - exists blk. split_and!; [by left|done..]. }
    destruct (slot_is_Some blk c1 Hlen Hc1) as [t1 Ht1].
    destruct (slot_is_Some blk c2 Hlen Hc2) as [t2 Ht2].
    assert (∀ c cs tc, slot blk c = Some tc →
              graft (S n) t (c :: cs) = Ptr (<[Z.to_nat c := graft n tc cs]> blk))
      as Hstep.
    { intros c cs tc Hc. cbn [graft].
      by destruct Hblk as [->|[-> ->]]; rewrite Hc. }
    rewrite (Hstep _ _ _ Ht1), (Hstep _ _ _ Ht2). cbn [graft].
    rewrite !slot_insert by (lia || done).
    destruct (decide (c2 = c1)) as [->|Hne].
    + rewrite decide_True by done. assert (t2 = t1) as -> by congruence.
      rewrite !list_insert_insert_eq. do 2 f_equal.
      apply IH; [by eapply Hsub|done..].
    + rewrite (decide_False (P := c1 = c2)) by done. rewrite Ht1, Ht2.
      f_equal. apply list_insert_insert_ne. lia.
Qed.

Lemma addutf_graft a set s pos a' set' p :
  wf set = true → addutf a set s pos = Some (a', set', Some p) →
  ∃ b c n start tp,
    s !! pos = Some b ∧ lead b pos c n start ∧ slot set c = Some tp ∧
    shaped (Z.to_nat n) tp = true ∧
    set' = <[Z.to_nat c :=
               graft (Z.to_nat n) tp
                 (indices (take (S (Z.to_nat n)) (drop start s)))]> set.
Proof.
  intros Hwf (b & Hb & [(_ & _ & _ & ?)|H])%addutf_inv; [done|].
  destruct H as (c & n & start & tp & tp' & Hl & Htp & Hw & ->).
  pose proof Hl as (Hn & Hc & _).
  destruct (wf_slot _ c Hwf Hc) as (n' & tp2 & Hn' & Htp2 & _ & Hsh).
  assert (n' = n) as -> by congruence. assert (tp2 = tp) as -> by congruence.
  exists b, c, n, start, tp. split_and!; [done..|].
  by rewrite (walk_graft _ _ _ _ _ _ _ _ Hw).
Qed.

(** X8: the order of two insertions does not matter.  When both orders
    succeed from the same well-shaped set, they end in the same set, block
    for block and bit for bit, whatever the allocators were. *)
Theorem X8_addutf_commutes (set : UTFSet) (s1 : list Z) (p1 : nat)
    (s2 : list Z) (p2 : nat)
    (a a1 a2 : allocator) (set1 set12 : UTFSet) (q1 q2 : nat)
    (b b1 b2 : allocator) (set2 set21 : UTFSet) (q2' q1' : nat) :
  wf set = true →
  addutf a set s1 p1 = Some (a1, set1, Some q1) →
  addutf a1 set1 s2 p2 = Some (a2, set12, Some q2) →
  addutf b set s2 p2 = Some (b1, set2, Some q2') →
  addutf b1 set2 s1 p1 = Some (b2, set21, Some q1') →
  set21 = set12.
Proof.
  intros Hwf H1 H12 H2 H21.
  pose proof (addutf_wf _ _ _ _ _ _ _ Hwf H1) as Hwf1.
  pose proof (addutf_wf _ _ _ _ _ _ _ Hwf H2) as Hwf2.
  destruct (addutf_graft _ _ _ _ _ _ _ Hwf H1)
    as (x1 & c1 & n1 & st1 & t1 & Hx1 & Hl1 & Ht1 & Hsh1 & ->).
  destruct (addutf_graft _ _ _ _ _ _ _ Hwf H2)
    as (x2 & c2 & n2 & st2 & t2 & Hx2 & Hl2 & Ht2 & Hsh2 & ->).
  destruct (addutf_graft _ _ _ _ _ _ _ Hwf1 H12)
    as (y2 & d2 & m2 & u2 & t12 & Hy2 & Hk2 & Ht12 & _ & ->).
  destruct (addutf_graft _ _ _ _ _ _ _ Hwf2 H21)
    as (y1 & d1 & m1 & u1 & t21 & Hy1 & Hk1 & Ht21 & _ & ->).
  assert (y1 = x1) as -> by congruence. assert (y2 = x2) as -> by congruence.
  destruct (lead_inj _ _ _ _ _ _ _ _ Hl1 Hk1) as (-> & -> & ->).
  destruct (lead_inj _ _ _ _ _ _ _ _ Hl2 Hk2) as (-> & -> & ->).
  pose proof Hl1 as (Hn1 & Hc1 & _). pose proof Hl2 as (Hn2 & Hc2 & _).
  rewrite slot_insert in Ht12 by (lia || by rewrite Ht1).
  rewrite slot_insert in Ht21 by (lia || by rewrite Ht2).
  destruct (decide (c2 = c1)) as [->|Hne].
  - rewrite decide_True in Ht21 by done.
    assert (n2 = n1) as -> by congruence. assert (t2 = t1) as -> by congruence.
    simplify_eq. rewrite !list_insert_insert_eq. f_equal.
    apply graft_comm; [done|apply indices_range..].
  - rewrite (decide_False (P := c1 = c2)) in Ht21 by done.
    assert (t12 = t2) as -> by congruence. assert (t21 = t1) as -> by congruence.
    apply list_insert_insert_ne. lia.
Qed.

Lemma X8_witness :
  <[32%nat := Ptr (<[1%nat := Bits 2]> zero_block)]>
    (<[1%nat := Bits 2]> empty_set)
  = <[1%nat := Bits 2]>
      (<[32%nat := Ptr (<[1%nat := Bits 2]> zero_block)]> empty_set).
Proof.
  apply (X8_addutf_commutes empty_set
           [0xE0; 0x81; 0x81; 0x41] 0 [0xE0; 0x81; 0x81; 0x41] 3
           [true] [] [] (<[32%nat := Ptr (<[1%nat := Bits 2]> zero_block)]> empty_set)
           _ 3 4
           [true; false] [true; false] [false] (<[1%nat := Bits 2]> empty_set)
           _ 4 3).
  - reflexivity.
  - reflexivity.
  - reflexivity.
  - reflexivity.
  - reflexivity.
Defined.

(** ** Overlong sequences *)

Lemma bind_twice (F : Z → list Z) (c1 c2 x : Z) :
  0 ≤ c1 → c1 < c2 → c2 < 64 → x ∈ F c1 → x ∈ F c2 →
  ∃ l1 l2 l3, seqZ 0 64 ≫= F = l1 ++ x :: l2 ++ x :: l3.
Proof.
  intros H0 Hlt H64 Hx1 Hx2.
  replace 64 with (c2 + (64 - c2)) by lia.
  rewrite seqZ_app, bind_app by lia.
  assert (x ∈ seqZ 0 c2 ≫= F) as (l1 & l2 & ->)%list_elem_of_split.
  { apply list_elem_of_bind. exists c1. split; [done|apply elem_of_seqZ; lia]. }
  assert (x ∈ seqZ (0 + c2) (64 - c2) ≫= F) as (l3 & l4 & ->)%list_elem_of_split.
  { apply list_elem_of_bind. exists c2. split; [done|apply elem_of_seqZ; lia]. }
  exists l1, (l2 ++ l3), l4. by rewrite <- !app_assoc.
Qed.

Lemma overlong3_decodes r s pos b c n start :
  0 ≤ r < 2048 → holds s pos (overlong3 r) → s !! pos = Some b →
  lead b pos c n start →
  c = 32 ∧ n = 1 ∧
  value (wrap32 (c mod Z.shiftr 64 n)) (take (S (Z.to_nat n)) (drop start s)) = r.
Proof.
  intros Hr Hh Hb (Hn & Hc & Hlead). unfold overlong3 in Hh.
  apply holds_cons in Hh as [Hb0 Hh]. assert (b = 224) as -> by congruence.
  assert (uchar 224 = 224) as Hu by done. rewrite Hu in Hlead.
  destruct Hlead as [(_ & -> & ->)|(? & _)]; [|lia].
  change (224 mod 64) with 32 in *.
  assert (n = 1) as -> by (vm_compute in Hn; congruence).
  split_and!; [done..|].
  unfold holds in Hh. cbn [length] in Hh. change (Z.to_nat 1) with 1%nat.
  rewrite Hh. cbn [value foldl]. unfold wrap32, uchar.
  change (32 mod Z.shiftr 64 1) with 0. change (2 ^ 32) with 4294967296.
  Z.div_mod_to_equations. lia.
Qed.

(** X9: an overlong sequence makes a second member of a rune.  After the
    UTF-8 encoding of a rune below [0x800] and its three-byte form have both
    been added, [foreach] visits this rune twice: once where it belongs and
    once more among the three-byte runes, after it. *)
Theorem X9_overlong_visited_twice (r : Z) (set : UTFSet)
    (s1 : list Z) (p1 : nat) (s2 : list Z) (p2 : nat)
    (a a1 a2 : allocator) (set1 set2 : UTFSet) (q1 q2 : nat) :
  wf set = true → 0 ≤ r < 0x800 →
  holds s1 p1 (utf8 r) → holds s2 p2 (overlong3 r) →
  addutf a set s1 p1 = Some (a1, set1, Some q1) →
  addutf a1 set1 s2 p2 = Some (a2, set2, Some q2) →
  ∃ l1 l2 l3, visits set2 = Some (l1 ++ r :: l2 ++ r :: l3).
Proof.
  intros Hwf Hr Hh1 Hh2 H1 H2.
  assert (rune_ok r) as Hok by (unfold rune_ok; lia).
  destruct (addutf_success _ _ _ _ _ _ _ Hwf H1)
    as (Hwf1 & b1 & c1 & n1 & st1 & tp1 & tp1' & Hb1 & Hl1 & Htp1 & -> & _ & _ & Hel1).
  destruct (utf8_decodes _ _ _ _ _ _ _ Hok Hh1 Hb1 Hl1) as (Hv1 & Hn4 & Hmin & _).
  pose proof Hl1 as (Hn1 & Hc1 & _). pose proof (clo6_range _ _ Hn1) as Hn06.
  assert (n1 = 0) as ->.
  { assert (n1 = 0 ∨ n1 = 1 ∨ n1 = 2 ∨ n1 = 3 ∨ n1 = 4) as Hcases by lia.
    destruct Hcases as [->|[->|[->|[->| ->]]]]; cbn in Hmin; lia. }
  assert (c1 < 32) as Hc32.
  { rewrite clo6_by_class in Hn1 by done. unfold clo6_class in Hn1.
    destruct (Z.ltb_spec c1 32); [done|].
    repeat match type of Hn1 with
      | context [?x <? ?y] => destruct (Z.ltb_spec x y)
      end; simplify_eq. }
  destruct (addutf_success _ _ _ _ _ _ _ Hwf1 H2)
    as (Hwf2 & b2 & c2 & n2 & st2 & tp2 & tp2' & Hb2 & Hl2 & Htp2 & -> & _ & _ & Hel2).
  destruct (overlong3_decodes _ _ _ _ _ _ _ Hr Hh2 Hb2 Hl2) as (-> & -> & Hv2).
  pose proof Hl2 as (Hn2 & _).
  rewrite visits_runes by done. unfold runes.
  destruct (bind_twice
    (λ c, match slot clo6 c, slot (<[Z.to_nat 32 := tp2']>
                                     (<[Z.to_nat c1 := tp1']> set)) c with
          | Some n, Some t => elems (Z.to_nat n) t (wrap32 (c mod Z.shiftr 64 n))
          | _, _ => []
          end) c1 32 r) as (l1 & l2 & l3 & ->); [lia..| | |by exists l1, l2, l3].
  - rewrite Hn1, slot_insert by (lia || by rewrite Htp2).
    rewrite decide_False by lia.
    rewrite slot_insert, decide_True by (lia || by rewrite Htp1).
    apply Hel1. right. by rewrite Hv1.
  - rewrite Hn2, slot_insert, decide_True by (lia || by rewrite Htp2).
    apply Hel2. right. by rewrite Hv2.
Qed.

Lemma X9_witness :
  ∃ l1 l2 l3,
    visits (<[32%nat := Ptr (<[1%nat := Bits 2]> zero_block)]>
             (<[1%nat := Bits 2]> empty_set))
    = Some (l1 ++ 0x41 :: l2 ++ 0x41 :: l3).
Proof.
  apply (X9_overlong_visited_twice 0x41 empty_set
           [0x41; 0xE0; 0x81; 0x81] 0 [0x41; 0xE0; 0x81; 0x81] 1
           [true] [true] [] (<[1%nat := Bits 2]> empty_set) _ 1 4).
  - reflexivity.
  - lia.
  - reflexivity.
  - reflexivity.
  - reflexivity.
  - reflexivity.
Defined.

(** ** foreach1 *)

(** X10: below one slot [foreach1] goes upwards, whatever was added.  For a
    well-shaped slot with [n] levels below it, reached with the partial value
    [r], the successive arguments of the callback are strictly increasing and
    lie in the window of the [64 ^ (n + 1)] values that extend [r], provided
    this window fits 32 bits. *)
Theorem X10_foreach1_window (t : child) (n : nat) (r : Z) :
  shaped n t = true → 0 ≤ r → (r + 1) * 64 ^ Z.of_nat (S n) ≤ 2 ^ 32 →
  ∃ l,
    foreach1 t n r (λ v l, l ++ [v]) [] = Some l ∧
    StronglySorted Z.lt l ∧
    ∀ v, v ∈ l → r * 64 ^ Z.of_nat (S n) ≤ v < (r + 1) * 64 ^ Z.of_nat (S n).
Proof.
  intros Ht Hr Hfit. exists (elems n t r).
  rewrite foreach1_elems, foldl_snoc by done.
  destruct (elems_sorted n t r Hr Hfit) as [Hs Hw]. by split_and!.
Qed.

Lemma X10_witness :
  ∃ l,
    foreach1 (Ptr (<[2%nat := Bits 5]> (<[1%nat := Bits (2 ^ 63)]> zero_block)))
      1 3 (λ v l, l ++ [v]) [] = Some l ∧
    StronglySorted Z.lt l ∧
    ∀ v, v ∈ l → 3 * 64 ^ Z.of_nat 2 ≤ v < (3 + 1) * 64 ^ Z.of_nat 2.
Proof.
  apply (X10_foreach1_window
           (Ptr (<[2%nat := Bits 5]> (<[1%nat := Bits (2 ^ 63)]> zero_block)))
           1 3).
  - reflexivity.
  - lia.
  - vm_compute. discriminate.
Defined.

(** ** prune *)

Lemma digit_value_hex_digit d : 0 ≤ d < 16 → digit_value (hex_digit d) = d.
Proof.
  intros Hd. apply Z.eqb_eq.
  by apply (forall_below (λ d, digit_value (hex_digit d) =? d) 16).
Qed.

Lemma unhex_hex_of fuel :
  ∀ x acc, 0 ≤ x < 16 ^ Z.of_nat fuel →
    unhex 0 (hex_of fuel x acc) = unhex x acc.
Proof.
  induction fuel as [|fuel IH]; intros x acc Hx.
  - cbn in *. by assert (x = 0) as -> by lia.
  - rewrite Nat2Z.inj_succ, Z.pow_succ_r in Hx by lia. cbn [hex_of].
    assert (0 ≤ x mod 16 < 16) as Hd by (apply Z.mod_pos_bound; lia).
    destruct (Z.eqb_spec (x / 16) 0) as [Hq|Hq].
    + cbn [unhex]. rewrite digit_value_hex_digit by done. f_equal.
      Z.div_mod_to_equations. lia.
    + rewrite IH by (Z.div_mod_to_equations; lia). cbn [unhex].
      rewrite digit_value_hex_digit by done. f_equal.
      Z.div_mod_to_equations. lia.
Qed.

Lemma hex_of_length fuel :
  ∀ x acc,
    (String.length acc + 1 ≤ String.length (hex_of (S fuel) x acc)
     ≤ String.length acc + S fuel)%nat.
Proof.
  induction fuel as [|fuel IH]; intros x acc.
  - cbn. destruct (x / 16 =? 0); cbn; lia.
  - change (hex_of (S (S fuel)) x acc)
      with (if x / 16 =? 0 then String (hex_digit (x mod 16)) acc
            else hex_of (S fuel) (x / 16) (String (hex_digit (x mod 16)) acc)).
    destruct (x / 16 =? 0); [cbn; lia|].
    specialize (IH (x / 16) (String (hex_digit (x mod 16)) acc)).
    cbn [String.length] in IH. lia.
Qed.

Lemma iter_zero_length k d :
  String.length (Nat.iter k (String "0"%char) d) = (k + String.length d)%nat.
Proof.
  induction k as [|k IH]; [done|].
  change (Nat.iter (S k) (String "0"%char) d)
    with (String "0"%char (Nat.iter k (String "0"%char) d)).
  cbn [String.length]. by rewrite IH.
Qed.

Lemma unhex_iter_zero k d : unhex 0 (Nat.iter k (String "0"%char) d) = unhex 0 d.
Proof.
  induction k as [|k IH]; [done|].
  change (Nat.iter (S k) (String "0"%char) d)
    with (String "0"%char (Nat.iter k (String "0"%char) d)).
  cbn [unhex]. apply IH.
Qed.



(** ** prunes *)

Lemma utf8_head_nonzero r :
  rune_ok r → r ≠ 0 →
  ∃ b bs, utf8 r = b :: bs ∧ uchar b ≠ 0 ∧ ¬ (128 ≤ uchar b < 192).
Proof.
  intros [Hr0 Hr1] Hnz. change (2 ^ 31) with 2147483648 in Hr1.
  unfold utf8, uchar.
  repeat match goal with
    | |- context [?x <? ?y] => destruct (Z.ltb_spec x y)
    end; eexists _, _; (split; [done|]); Z.div_mod_to_equations; lia.
Qed.

(** The loop of [prunes] over the encoding of runes other than U+0000, with
    an allocator that does not fail: one iteration for each rune. *)
Lemma prunes_from_encode rs :
  ∀ fuel m a0 set s pos out,
    wf set = true → canon set → Forall (λ r, rune_ok r ∧ r ≠ 0) rs →
    holds s pos (encode rs) → (4 * length rs ≤ m)%nat →
    ∃ k set',
      (k ≤ 4 * length rs)%nat ∧
      prunes_from (length rs + fuel) (replicate m true ++ a0) set s pos out
      = prunes_from fuel (replicate (m - k) true ++ a0) set' s
          (pos + length (encode rs)) out ∧
      wf set' = true ∧ canon set' ∧
      ∀ v, v ∈ runes set' ↔ v ∈ runes set ∨ v ∈ rs.
Proof.
  induction rs as [|r rs IH]; intros fuel m a0 set s pos out Hwf Hcanon Hrs Hh Hm.
  - exists 0%nat, set. cbn. rewrite Nat.sub_0_r, Nat.add_0_r.
    split_and!; [done..|]. intros v. rewrite elem_of_nil. tauto.
  - apply Forall_cons in Hrs as [[Hr Hnz] Hrs]. unfold encode in Hh.
    rewrite bind_cons in Hh. apply holds_app in Hh as [Hh1 Hh2].
    destruct (utf8_head_nonzero r Hr Hnz) as (b & bs & Heq & Hb0 & Hb).
    assert (s !! pos = Some b) as Hsb.
    { rewrite Heq in Hh1. by apply holds_cons in Hh1 as [? _]. }
    destruct (lead_exists b pos Hb) as (c & n & start & Hl).
    destruct (utf8_decodes _ _ _ _ _ _ _ Hr Hh1 Hsb Hl) as (_ & Hn4 & _ & Hlen).
    pose proof (holds_length _ _ _ Hh1) as Hfit.
    pose proof Hl as (Hn%clo6_range & _). cbn [length] in Hm.
    assert (pos ≤ start)%nat
      by (destruct Hl as (_ & _ & [(_ & _ & ->)|(_ & _ & _ & ->)]); lia).
    destruct (addutf_succeeds m a0 set s pos b c n start)
      as (k1 & set1 & Hk1 & Hadd); [done..|lia|lia|].
    rewrite Hlen in Hadd.
    destruct (addutf_utf8 _ _ _ _ _ _ _ _ Hwf Hcanon Hr Hh1 Hadd)
      as (Hwf1 & Hcanon1 & _ & Hrunes1).
    destruct (IH fuel (m - k1)%nat a0 set1 s (pos + length (utf8 r))%nat out)
      as (k2 & set2 & Hk2 & Hrun & Hwf2 & Hcanon2 & Hrunes2); [done..|lia|].
    exists (k1 + k2)%nat, set2.
    change (length (r :: rs) + fuel)%nat with (S (length rs + fuel)).
    cbn [prunes_from]. rewrite Hsb.
    apply Z.eqb_neq in Hb0 as ->. rewrite Hadd, Hrun.
    split_and!; [cbn [length]; lia| |done..|].
    + unfold encode. rewrite bind_cons, length_app.
      replace (m - (k1 + k2))%nat with (m - k1 - k2)%nat by lia.
      by rewrite Nat.add_assoc.
    + intros v. rewrite Hrunes2, Hrunes1, elem_of_cons. tauto.
Qed.

Lemma prunes_from_more fuel :
  ∀ a set s pos out res,
    prunes_from fuel a set s pos out = res → res ≠ OutOfFuel →
    ∀ fuel', (fuel ≤ fuel')%nat → prunes_from fuel' a set s pos out = res.
Proof.
  induction fuel as [|fuel IH]; intros a set s pos out res Hrun Hres fuel' Hle.
  - cbn in Hrun. by subst.
  - destruct fuel' as [|fuel']; [lia|]. cbn [prunes_from] in *.
    destruct (s !! pos) as [b|]; [|done].
    destruct (uchar b =? 0); [done|].
    destruct (addutf a set s pos) as [[[a' set'] [p|]]|]; [|done..].
    eapply IH; [done..|lia].
Qed.

Lemma prunes_from_ends fuel :
  ∀ a set s pos out,
    (length s - pos < fuel)%nat → prunes_from fuel a set s pos out ≠ OutOfFuel.
Proof.
  induction fuel as [|fuel IH]; intros a set s pos out Hfuel; [lia|].
  cbn [prunes_from].
  destruct (s !! pos) as [b|] eqn:Hb; [|done].
  destruct (uchar b =? 0).
  { by destruct (foreach a set prune out) as [[[? ?] ?]|]. }
  destruct (addutf a set s pos) as [[[a' set'] [p|]]|] eqn:Hadd; [|done..].
  apply IH. apply addutf_cursor in Hadd. apply lookup_lt_Some in Hb. lia.
Qed.

(** X12: [prunes] on a string of UTF-8.  When the buffer holds, at the
    cursor, the encoding of runes other than U+0000 and then a zero byte, and
    no allocation fails, [prunes] returns [0] and has printed one line for
    each rune of the string, each rune once, in ascending order. *)
Theorem X12_prunes_prints_sorted (rs : list Z) (fuel m : nat) (a0 : allocator)
    (s : list Z) (pos : nat) (out : string) :
  Forall (λ r, rune_ok r ∧ r ≠ 0) rs → holds s pos (encode rs ++ [0]) →
  (4 * length rs ≤ m)%nat → (length rs < fuel)%nat →
  ∃ a' l,
    prunes fuel (replicate m true ++ a0) s pos out
    = Returns (a', foldl (λ o v, prune v o) out l, 0) ∧
    StronglySorted Z.lt l ∧ ∀ v, v ∈ l ↔ v ∈ rs.
Proof.
  intros Hrs [Hh Hnul]%holds_app Hm Hfuel.
  apply holds_cons in Hnul as [Hnul _].
  destruct (prunes_from_encode rs (fuel - length rs) m a0 empty_set s pos out)
    as (k & set' & _ & Hrun & Hwf & Hcanon & Hrunes);
    [done|apply canon_empty|done..|].
  replace (length rs + (fuel - length rs))%nat with fuel in Hrun by lia.
  unfold prunes. rewrite Hrun.
  destruct (fuel - length rs)%nat as [|fuel'] eqn:Hf; [lia|].
  cbn [prunes_from]. rewrite Hnul.
  change (uchar 0 =? 0) with true. cbn match. rewrite foreach_runes by done.
  eexists _, (runes set'). split_and!; [done|by apply runes_sorted|].
  intros v. rewrite Hrunes. split; [|by right].
  intros [Hv|Hv]; [|done]. by apply elem_of_nil in Hv.
Qed.

Lemma X12_witness :
  ∃ a' l,
    prunes 5 (replicate 8 true ++ []) [0xE2; 0x82; 0xAC; 0x61; 0x00; 0x62] 0 ""
    = Returns (a', foldl (λ o v, prune v o) "" l, 0) ∧
    StronglySorted Z.lt l ∧ ∀ v, v ∈ l ↔ v ∈ [0x20AC; 0x61].
Proof.
  apply (X12_prunes_prints_sorted [0x20AC; 0x61] 5 8 []
           [0xE2; 0x82; 0xAC; 0x61; 0x00; 0x62] 0 "").
  - repeat (constructor; [unfold rune_ok; lia|]). constructor.
  - reflexivity.
  - simpl. lia.
  - simpl. lia.
Defined.

(** X13: [prunes] gives up at the first continuation byte in leading
    position.  When such a byte follows the encoding of runes other than
    U+0000, [prunes] returns [-1] and prints nothing, though these runes
    were added to the set. *)
Theorem X13_prunes_malformed (rs : list Z) (b : Z) (fuel m : nat)
    (a0 : allocator) (s : list Z) (pos : nat) (out : string) :
  Forall (λ r, rune_ok r ∧ r ≠ 0) rs → holds s pos (encode rs ++ [b]) →
  128 ≤ uchar b < 192 →
  (4 * length rs ≤ m)%nat → (length rs < fuel)%nat →
  ∃ a', prunes fuel (replicate m true ++ a0) s pos out = Returns (a', out, -1).
Proof.
  intros Hrs [Hh Hb]%holds_app Hcont Hm Hfuel.
  apply holds_cons in Hb as [Hb _].
  destruct (prunes_from_encode rs (fuel - length rs) m a0 empty_set s pos out)
    as (k & set' & _ & Hrun & _); [done|apply canon_empty|done..|].
  replace (length rs + (fuel - length rs))%nat with fuel in Hrun by lia.
  unfold prunes. rewrite Hrun.
  destruct (fuel - length rs)%nat as [|fuel'] eqn:Hf; [lia|].
  cbn [prunes_from]. rewrite Hb.
  assert ((uchar b =? 0) = false) as -> by (apply Z.eqb_neq; lia).
  rewrite (addutf_continuation _ _ _ _ _ Hb Hcont). by eexists.
Qed.

Lemma X13_witness :
  ∃ a', prunes 3 (replicate 4 true ++ []) [0x61; 0xA9; 0x00] 0 "" = Returns (a', "", -1).
Proof.
  apply (X13_prunes_malformed [0x61] 0xA9 3 4 [] [0x61; 0xA9; 0x00] 0 "").
  - repeat (constructor; [unfold rune_ok; lia|]). constructor.
  - reflexivity.
  - vm_compute. split; [discriminate|reflexivity].
  - simpl. lia.
  - simpl. lia.
Defined.


Lemma walk_overrun n :
  ∀ m a0 tp s pos,
    shaped n tp = true → (n ≤ m)%nat → (length s ≤ pos + n)%nat →
    walk n (replicate m true ++ a0) tp s pos = None.
Proof.
  induction n as [|n IH]; intros m a0 tp s pos Ht Hm Hlen.
  - cbn. by rewrite lookup_ge_None_2 by lia.
  - assert (∀ m blk, shaped (S n) (Ptr blk) = true → (n ≤ m)%nat →
              walk (S n) (replicate m true ++ a0) (Ptr blk) s pos = None)
      as Hptr.
    { intros m' blk [?|(? & [= <-] & Hblk & Hsub)]%shaped_node Hm'; [done|].
      cbn [walk ptr_of]. cbn [mbind option_bind].
      destruct (s !! pos) as [b|]; [|done]. cbn [mbind option_bind].
      destruct (slot_is_Some blk (uchar b mod 64) Hblk (low6_range b)) as [t Hslot].
      rewrite Hslot. cbn [mbind option_bind].
      rewrite IH; [done|by eapply Hsub|lia..]. }
    apply shaped_node in Ht as Ht'. destruct Ht' as [->|(blk & -> & _)].
    + destruct m as [|m]; [lia|]. cbn [replicate app].
      rewrite walk_node_calloc. apply Hptr; [apply shaped_zero_block|lia].
    + apply Hptr; [done|lia].
Qed.

(** X15: [prunes] trusts the lead byte over the end of the string.  When
    the sequence that a lead byte announces, after the encoding of runes
    other than U+0000, runs up to the end of the buffer or beyond it (as in a
    string cut inside a sequence, whose zero byte is taken for a
    continuation byte), and no allocation fails, [prunes] reads outside the
    buffer. *)
Theorem X15_prunes_overruns (rs : list Z) (b n : Z) (fuel m : nat)
    (a0 : allocator) (s : list Z) (pos : nat) (out : string) :
  Forall (λ r, rune_ok r ∧ r ≠ 0) rs → holds s pos (encode rs ++ [b]) →
  192 ≤ uchar b → slot clo6 (uchar b mod 64) = Some n →
  (length s ≤ pos + length (encode rs) + Z.to_nat n + 2)%nat →
  (4 * length rs + Z.to_nat n ≤ m)%nat → (length rs + 2 ≤ fuel)%nat →
  prunes fuel (replicate m true ++ a0) s pos out = Undefined.
Proof.
  intros Hrs [Hh Hb]%holds_app Hhi Hn Hlen Hm Hfuel.
  apply holds_cons in Hb as [Hb _].
  destruct (prunes_from_encode rs (fuel - length rs) m a0 empty_set s pos out)
    as (k & set' & Hk & Hrun & Hwf & _); [done|apply canon_empty|done|done|lia|].
  replace (length rs + (fuel - length rs))%nat with fuel in Hrun by lia.
  unfold prunes. rewrite Hrun.
  destruct (fuel - length rs)%nat as [|[|fuel']] eqn:Hf; [lia..|].
  set (p := (pos + length (encode rs))%nat) in *.
  assert (0 ≤ uchar b mod 64 < 64) as Hc by (apply Z.mod_pos_bound; lia).
  assert (lead b p (uchar b mod 64) n (S p)) as Hl
    by (split_and!; [done|lia..|by left]).
  cbn [prunes_from]. rewrite Hb.
  assert ((uchar b =? 0) = false) as -> by (apply Z.eqb_neq; lia).
  destruct (decide (length s = p + Z.to_nat n + 2)%nat) as [Heq|Hne].
  - destruct (addutf_succeeds (m - k) a0 set' s p b _ n (S p) Hwf Hb Hl)
      as (k' & set2 & _ & ->); [lia..|].
    by rewrite lookup_ge_None_2 by lia.
  - rewrite (addutf_lead _ _ _ _ _ _ _ _ Hb Hl).
    destruct (wf_slot _ _ Hwf Hc) as (n' & tp & Hn' & -> & _ & Hsh).
    assert (n' = n) as -> by congruence. cbn [mbind option_bind].
    by rewrite walk_overrun by (done || lia).
Qed.

Lemma X15_witness :
  prunes 3 (replicate 5 true ++ []) [0x61; 0xE2; 0x82; 0x00] 0 "" = Undefined.
Proof.
  apply (X15_prunes_overruns [0x61] 0xE2 1 3 5 [] [0x61; 0xE2; 0x82; 0x00] 0 "").
  - repeat (constructor; [unfold rune_ok; lia|]). constructor.
  - reflexivity.
  - vm_compute. discriminate.
  - reflexivity.
  - simpl. lia.
  - simpl. lia.
  - simpl. lia.
Defined.
